(** * NCIT definition extractor: a shallow embedding of
    [scripts/enrichment/ncit_def_extractor.py] and the properties of its
    triple rewriting.

    The script loads an RDF graph, visits the subjects that carry an
    [rdfs:seeAlso] triple, turns their two [rdfs:comment] annotations into
    a definition and a synonym wrapped in [owl:Axiom] reifications, removes
    the original annotations and saves the graph.

    The RDF library (rdflib) is an external collaborator.  Its [Graph] is
    modelled as a duplicate-free list of triples kept in insertion order,
    read through its index by predicate and object where the script
    iterates over subjects; [BNode()] draws identifiers from a counter;
    the RDF/XML writer is a parameter. *)

From Stdlib Require Import String Ascii List Arith Lia Bool DecimalString.
From stdpp Require Import base decidable option list strings gmap.

Local Open Scope string_scope.

(** ** RDF terms *)

Module Rdf.

(** The three kinds of literal rdflib distinguishes when it compares
    literals: no tag, a language tag, or a datatype IRI. *)
Inductive tag :=
| Plain
| Lang (language : string)
| Typed (datatype : string).

Inductive term :=
| URIRef (iri : string)
| BNode (id : nat)
| Literal (lexical : string) (t : tag).

Definition triple : Type := term * term * term.

#[export] Instance tag_eq_dec : EqDecision tag.
Proof. solve_decision. Defined.

#[export] Instance term_eq_dec : EqDecision term.
Proof. solve_decision. Defined.

(** [str(x)]: every rdflib term is a Python [str]; for a literal it is
    the lexical form, for an IRI the IRI text, for a blank node its
    identifier. *)
Definition str (x : term) : string :=
  match x with
  | URIRef iri => iri
  | BNode id => "N" ++ NilEmpty.string_of_uint (Nat.to_uint id)
  | Literal lexical _ => lexical
  end.

(** [len(s)] of a Python string: its number of characters, a string
    being modelled with one [ascii] for each character. *)
Definition len (s : string) : nat := String.length s.

Definition subject (t : triple) : term := t.1.1.
Definition predicate (t : triple) : term := t.1.2.
Definition object (t : triple) : term := t.2.

(** Namespaces of [rdflib.namespace]. *)
Module RDF.
Definition type := URIRef "http://www.w3.org/1999/02/22-rdf-syntax-ns#type".
End RDF.

Module RDFS.
Definition seeAlso := URIRef "http://www.w3.org/2000/01/rdf-schema#seeAlso".
Definition comment := URIRef "http://www.w3.org/2000/01/rdf-schema#comment".
End RDFS.

Module OWL.
Definition Axiom_ := URIRef "http://www.w3.org/2002/07/owl#Axiom".
Definition annotatedSource := URIRef "http://www.w3.org/2002/07/owl#annotatedSource".
Definition annotatedProperty := URIRef "http://www.w3.org/2002/07/owl#annotatedProperty".
Definition annotatedTarget := URIRef "http://www.w3.org/2002/07/owl#annotatedTarget".
End OWL.

End Rdf.

Import Rdf.

(** ** The triple store *)

(** The keys of a Python [dict] in the order of their first insertion. *)
Fixpoint first_occurrences {A : Type} `{EqDecision A} (l : list A) : list A :=
  match l with
  | [] => []
  | x :: l' => x :: filter (λ y, y ≠ x) (first_occurrences l')
  end.

Module Graph.

(** [g.add(t)]: set semantics, a triple already present is not added
    again. *)
Definition add (t : triple) (g : list triple) : list triple :=
  if decide (t ∈ g) then g else (g ++ [t])%list.

(** [g.remove(t)] for a fully specified triple. *)
Definition remove (t : triple) (g : list triple) : list triple :=
  filter (λ x, x ≠ t) g.

(** [g.objects(s, p)]: the objects of the triples matching [(s, p, _)],
    in store order. *)
Definition objects (g : list triple) (s p : term) : list term :=
  object <$> filter (λ t, subject t = s ∧ predicate t = p) g.

(** The store answers a pattern [(_, p, _)] from its index by predicate
    and object: [keys] are the objects that occur with [p], in the order
    of their first insertion, and [subjects_of] are the subjects recorded
    for [p] and one object. *)
Definition keys (g : list triple) (p : term) : list term :=
  first_occurrences (object <$> filter (λ t, predicate t = p) g).

Definition subjects_of (g : list triple) (p o : term) : list term :=
  subject <$> filter (λ t, predicate t = p ∧ object t = o) g.

(** [g.subjects(p, None)] on a graph that does not change meanwhile: the
    subject of every triple matching [(_, p, _)], object by object; a
    subject is yielded once per matching triple. *)
Definition subjects (g : list triple) (p : term) : list term :=
  keys g p ≫= subjects_of g p.

End Graph.

(** ** Program state: the graph [g] and the supply of blank-node ids *)

Record state := State { graph : list triple; next_bnode : nat }.

(** [g.add(t)] on the program state. *)
Definition g_add (t : triple) (st : state) : state :=
  State (Graph.add t (graph st)) (next_bnode st).

(** [g.remove(t)] on the program state. *)
Definition g_remove (t : triple) (st : state) : state :=
  State (Graph.remove t (graph st)) (next_bnode st).

(** [BNode()]: a new identifier. *)
Definition new_BNode (st : state) : term * state :=
  (BNode (next_bnode st), State (graph st) (S (next_bnode st))).

(** ** Constants of the script *)

Definition OIO (name : string) : term :=
  URIRef ("http://www.geneontology.org/formats/oboInOwl#" ++ name).
Definition IAO_DEF : term := URIRef "http://purl.obolibrary.org/obo/IAO_0000115".
Definition HAS_SYN : term := OIO "hasSynonym".
Definition HAS_XREF : term := OIO "hasDbXref".

(** ** [graft_axiom] *)

Definition graft_axiom (st : state) (subj prop tgt_literal xref_literal : term) : state :=
  (* assertion triple *)
  let st := g_add (subj, prop, tgt_literal) st in
  (* reified axiom *)
  let '(ax, st) := new_BNode st in
  let st := g_add (ax, RDF.type, OWL.Axiom_) st in
  let st := g_add (ax, OWL.annotatedSource, subj) st in
  let st := g_add (ax, OWL.annotatedProperty, prop) st in
  let st := g_add (ax, OWL.annotatedTarget, tgt_literal) st in
  g_add (ax, HAS_XREF, xref_literal) st.


(** ** Exceptions and results *)

Inductive pyexn := StopIteration | IndexError | OSError.

Inductive res (A : Type) :=
| Ok (a : A)
| Raise (e : pyexn).
Arguments Ok {A} a.
Arguments Raise {A} e.

#[export] Instance res_bind : MBind res := λ A B k m,
  match m with
  | Ok a => k a
  | Raise e => Raise e
  end.

(** [next(it)] on an iterator over [l]; [l[0]] and [l[-1]] on a list. *)
Definition next {A : Type} (l : list A) : res A :=
  match l with
  | x :: _ => Ok x
  | [] => Raise StopIteration
  end.

Definition first {A : Type} (l : list A) : res A :=
  match head l with
  | Some x => Ok x
  | None => Raise IndexError
  end.

Definition final {A : Type} (l : list A) : res A :=
  match last l with
  | Some x => Ok x
  | None => Raise IndexError
  end.

(** [sorted(l, key=key)]: Python's sort is stable, elements with equal
    keys keep their relative order. *)
Fixpoint insert_by {A : Type} (key : A → nat) (x : A) (l : list A) : list A :=
  match l with
  | [] => [x]
  | y :: l' => if (key x <=? key y)%nat then x :: y :: l' else y :: insert_by key x l'
  end.

Definition sorted {A : Type} (key : A → nat) (l : list A) : list A :=
  foldr (insert_by key) [] l.

(** ** The body of [migrate]'s loop *)

(** Lines 76-77: the cross-reference text in NCIT form. *)
Definition ncit_id (ncit_raw : string) : string :=
  if String.prefix "NCIT:" ncit_raw then ncit_raw else "NCIT:" ++ ncit_raw.

(** One iteration for the subject [cls].  The boolean tells whether the
    iteration reached [processed_count += 1] ([true]) or left through
    [continue] ([false]). *)
Definition migrate_body (st : state) (cls : term) : res (state * bool) :=
  (* 1) NCIT ID *)
  o ← next (Graph.objects (graph st) cls RDFS.seeAlso);
  let ncit_raw := str o in
  let xref_lit := Literal (ncit_id ncit_raw) Plain in
  (* 2) split comments into name vs definition *)
  let coms := Graph.objects (graph st) cls RDFS.comment in
  if (length coms <? 2)%nat then Ok (st, false)
  else
    let coms_sorted := sorted (λ lit, len (str lit)) coms in
    name_lit ← first coms_sorted;
    def_lit ← final coms_sorted;
    (* 3) add new annotations wrapped in owl:Axiom *)
    let st := graft_axiom st cls IAO_DEF def_lit xref_lit in
    let st := graft_axiom st cls HAS_SYN name_lit xref_lit in
    (* 4) cleanup *)
    let st := g_remove (cls, RDFS.comment, name_lit) st in
    let st := g_remove (cls, RDFS.comment, def_lit) st in
    let st := g_remove (cls, RDFS.seeAlso, Literal ncit_raw Plain) st in
    Ok (st, true).

(** The [for cls in ...] loop over the subjects [subjs] the store yields. *)
Fixpoint migrate_loop (subjs : list term) (st : state) (processed_count : nat)
  : res (state * nat) :=
  match subjs with
  | [] => Ok (st, processed_count)
  | cls :: subjs' =>
      '(st, counted) ← migrate_body st cls;
      migrate_loop subjs' st
        (if counted : bool then processed_count + 1 else processed_count)
  end.

(** The loop runs over the generator [g.subjects(RDFS.seeAlso, None)]
    while its body changes the graph.  The generator takes the objects
    that occur with [rdfs:seeAlso] when it starts, and reads the subjects
    of each object when it reaches that object: a see-also triple removed
    before its object is reached is not yielded. *)
Fixpoint migrate_groups (objs : list term) (st : state) (processed_count : nat)
  : res (state * nat) :=
  match objs with
  | [] => Ok (st, processed_count)
  | o :: objs' =>
      '(st, processed_count) ←
        migrate_loop (Graph.subjects_of (graph st) RDFS.seeAlso o)
          st processed_count;
      migrate_groups objs' st processed_count
  end.

(** Lines 72-96 of [migrate]: the counter starts at 0 and the loop runs
    over [g.subjects(RDFS.seeAlso, None)]. *)
Definition migrate_graph (st : state) : res (state * nat) :=
  migrate_groups (Graph.keys (graph st) RDFS.seeAlso) st 0.

(** ** Files, console and process outcome *)

(** What a file holds: a serialisation of a list of triples that
    [g.parse] accepts, or anything else. *)
Inductive content :=
| RdfDoc (ts : list triple)
| Bytes (raw : string).

Inductive node :=
| File (c : content)
| Dir.

(** A [pathlib.Path] as its components below the root. *)
Abbreviation path := (list string).
Abbreviation filesystem := (gmap (list string) node).

Definition stat (fs : filesystem) (p : path) : option node :=
  match p with
  | [] => Some Dir
  | _ => fs !! p
  end.

(** [p.exists()] and [p.is_file()]. *)
Definition exists_ (fs : filesystem) (p : path) : bool :=
  match stat fs p with
  | Some _ => true
  | None => false
  end.

Definition is_file (fs : filesystem) (p : path) : bool :=
  match stat fs p with
  | Some (File _) => true
  | _ => false
  end.

(** [p.parent]. *)
Definition parent (p : path) : path := removelast p.

(** [d.mkdir(parents=True, exist_ok=True)]: every missing directory on the
    way to [seen ++ todo] is created; a regular file in the way raises and
    leaves the directories created so far. *)
Fixpoint mkdir_parents (fs : filesystem) (seen todo : path)
  : filesystem * option pyexn :=
  match todo with
  | [] => (fs, None)
  | c :: todo' =>
      let d := (seen ++ [c])%list in
      match fs !! d with
      | Some Dir => mkdir_parents fs d todo'
      | Some (File _) => (fs, Some OSError)
      | None => mkdir_parents (<[d := Dir]> fs) d todo'
      end
  end.

(** The lines the script prints. *)
Inductive line :=
| Loaded (in_path : path)
| ErrorLoading (in_path : path)
| ProcessedClasses (processed_count : nat)
| Saved (out_path : path)
| ErrorSaving (out_path : path)
| SourceMissing (src_path : path)
| NotAFile (src_path : path)
| VerboseSource (src_path : path)
| VerboseDestination (dst_path : path).

Inductive pyval :=
| PyNone
| PyInt (n : nat).

(** How a call ends: it returns a value, [sys.exit(code)] is raised, or
    another exception escapes. *)
Inductive outcome :=
| Returned (v : pyval)
| SysExit (code : nat)
| Uncaught (e : pyexn).

Record run := Run { result : outcome; files : filesystem; stdout : list line }.

(** Exit status of the interpreter for [main()]. *)
Definition exit_code (o : outcome) : nat :=
  match o with
  | Returned _ => 0
  | SysExit code => code
  | Uncaught _ => 1
  end.

(** ** Loading and saving *)

Definition bnode_id (x : term) : option nat :=
  match x with
  | BNode id => Some id
  | _ => None
  end.

Definition term_below (n : nat) (x : term) : Prop :=
  match x with
  | BNode id => id < n
  | _ => True
  end.

Definition triple_ids (t : triple) : list nat :=
  omap bnode_id [subject t; predicate t; object t].

(** The first identifier above every blank node of [ts]. *)
Definition supply_after (ts : list triple) : nat :=
  S (max_list (ts ≫= triple_ids)).

(** The state [g.parse] leaves for a document holding [ts]: the triples
    are added one by one, a repeated triple stays where it was first
    added; the blank nodes the program creates later differ from the
    parsed ones. *)
Definition loaded (ts : list triple) : state :=
  let g := foldl (λ g t, Graph.add t g) [] ts in
  State g (supply_after g).

(** [g.parse(in_path)]. *)
Definition parse (fs : filesystem) (in_path : path) : option state :=
  match stat fs in_path with
  | Some (File (RdfDoc ts)) => Some (loaded ts)
  | _ => None
  end.

(** The RDF/XML writer of the library, which is not part of the script:
    the graphs it accepts, and what it has written when it raises on a
    graph it does not accept. *)
Record xml_writer := XmlWriter {
  accepts : list triple → bool;
  written_before_error : list triple → string
}.

(** [g.serialize(out_path, format="xml")]: the destination is opened for
    writing, which creates or empties it, and the writer then runs.  The
    boolean tells whether the call returned without raising. *)
Definition serialize (xml : xml_writer) (fs : filesystem) (g : list triple)
    (out_path : path) : filesystem * bool :=
  match stat fs out_path, stat fs (parent out_path) with
  | Some Dir, _ => (fs, false)
  | _, Some Dir =>
      if accepts xml g then (<[out_path := File (RdfDoc g)]> fs, true)
      else (<[out_path := File (Bytes (written_before_error xml g))]> fs, false)
  | _, _ => (fs, false)
  end.

(** ** [migrate] *)

Definition migrate (xml : xml_writer) (fs : filesystem)
    (in_path out_path : path) : run :=
  match parse fs in_path with
  | None => Run (SysExit 1) fs [ErrorLoading in_path]
  | Some st =>
      let out := [Loaded in_path] in
      match migrate_graph st with
      | Raise e => Run (Uncaught e) fs out
      | Ok (st, processed_count) =>
          match serialize xml fs (graph st) out_path with
          | (fs', true) =>
              Run (Returned PyNone) fs'
                  (out ++ [ProcessedClasses processed_count; Saved out_path])%list
          | (fs', false) =>
              Run (SysExit 1) fs' (out ++ [ErrorSaving out_path])%list
          end
      end
  end.

(** ** [main], after argument parsing *)

Definition main (xml : xml_writer) (fs : filesystem)
    (source_file destination_file : path) (verbose : bool) : run :=
  let src_path := source_file in
  let dst_path := destination_file in
  if negb (exists_ fs src_path) then
    Run (SysExit 1) fs [SourceMissing src_path]
  else if negb (is_file fs src_path) then
    Run (SysExit 1) fs [NotAFile src_path]
  else
    match mkdir_parents fs [] (parent dst_path) with
    | (fs, Some e) => Run (Uncaught e) fs []
    | (fs, None) =>
        let out :=
          if verbose then [VerboseSource src_path; VerboseDestination dst_path]
          else [] in
        let r := migrate xml fs src_path dst_path in
        Run (result r) (files r) (out ++ stdout r)%list
    end.

(** ** Well-formed states *)

Definition triple_below (n : nat) (t : triple) : Prop :=
  term_below n (subject t) ∧ term_below n (predicate t) ∧ term_below n (object t).

(** Every blank node of the graph was issued before [next_bnode]. *)
Definition fresh (st : state) : Prop :=
  Forall (triple_below (next_bnode st)) (graph st).

#[export] Instance term_below_dec n x : Decision (term_below n x).
Proof. destruct x; simpl; apply _. Defined.

#[export] Instance triple_below_dec n t : Decision (triple_below n t).
Proof. unfold triple_below; apply _. Defined.

#[export] Instance fresh_dec st : Decision (fresh st).
Proof. unfold fresh; apply _. Defined.

(** The five triples that describe the reified axiom [ax]. *)
Definition axiom_triples (ax subj prop tgt_literal xref_literal : term) : list triple :=
  [ (ax, RDF.type, OWL.Axiom_);
    (ax, OWL.annotatedSource, subj);
    (ax, OWL.annotatedProperty, prop);
    (ax, OWL.annotatedTarget, tgt_literal);
    (ax, HAS_XREF, xref_literal) ].

(** The subjects on which the loop body reached [processed_count += 1],
    in order: the log of the rewrites of a run. *)
Fixpoint processed (subjs : list term) (st : state) : list term :=
  match subjs with
  | [] => []
  | cls :: subjs' =>
      match migrate_body st cls with
      | Ok (st', counted) =>
          (if counted then [cls] else []) ++ processed subjs' st'
      | Raise _ => []
      end
  end%list.

(** The key [sorted] is called with in the loop. *)
Definition text_length (lit : term) : nat := len (str lit).

(** The state steps 3 and 4 of the loop body leave, for the see-also
    object [o] read in step 1 and the two comments chosen in step 2. *)
Definition rewritten (st : state) (cls o name_lit def_lit : term) : state :=
  let xref_lit := Literal (ncit_id (str o)) Plain in
  let st := graft_axiom st cls IAO_DEF def_lit xref_lit in
  let st := graft_axiom st cls HAS_SYN name_lit xref_lit in
  let st := g_remove (cls, RDFS.comment, name_lit) st in
  let st := g_remove (cls, RDFS.comment, def_lit) st in
  g_remove (cls, RDFS.seeAlso, Literal (str o) Plain) st.

(** The triples step 3 adds and the triples step 4 removes. *)
Definition added (st : state) (cls o name_lit def_lit : term) : list triple :=
  let xref_lit := Literal (ncit_id (str o)) Plain in
  ((cls, IAO_DEF, def_lit)
     :: axiom_triples (BNode (next_bnode st)) cls IAO_DEF def_lit xref_lit)
  ++ ((cls, HAS_SYN, name_lit)
     :: axiom_triples (BNode (S (next_bnode st))) cls HAS_SYN name_lit xref_lit).

Definition removed (cls o name_lit def_lit : term) : list triple :=
  [ (cls, RDFS.comment, name_lit);
    (cls, RDFS.comment, def_lit);
    (cls, RDFS.seeAlso, Literal (str o) Plain) ].

(** ** Sample documents *)

Definition ex (local : string) : term := URIRef ("http://example.org/" ++ local).
Definition C123 : term := ex "C123".
Definition short_name : term := Literal "Short name" Plain.
Definition long_definition : term :=
  Literal "A much longer descriptive definition of the concept." Plain.

(** One class with a see-also link and its two comments. *)
Definition scenario : list triple :=
  [ (C123, RDFS.seeAlso, Literal "C999" Plain);
    (C123, RDFS.comment, short_name);
    (C123, RDFS.comment, long_definition) ].

(** One class with two see-also links and four comments. *)
Definition two_links : list triple :=
  [ (C123, RDFS.seeAlso, Literal "C1" Plain);
    (C123, RDFS.seeAlso, Literal "C2" Plain);
    (C123, RDFS.comment, Literal "a" Plain);
    (C123, RDFS.comment, Literal "bb" Plain);
    (C123, RDFS.comment, Literal "ccc" Plain);
    (C123, RDFS.comment, Literal "dddd" Plain) ].

(** The scenario with a see-also object that is not a plain literal. *)
Definition linked_by (o : term) : list triple :=
  [ (C123, RDFS.seeAlso, o);
    (C123, RDFS.comment, short_name);
    (C123, RDFS.comment, long_definition) ].

Definition tagged_link : term := Literal "C999" (Lang "en").
Definition typed_link : term :=
  Literal "C999" (Typed "http://www.w3.org/2001/XMLSchema#string").
Definition iri_link : term :=
  URIRef "http://purl.obolibrary.org/obo/NCIT_C999".

(** The scenario next to a class that has a single comment. *)
Definition C7 : term := ex "C7".
Definition with_single_comment : list triple :=
  [ (C7, RDFS.seeAlso, Literal "C777" Plain);
    (C7, RDFS.comment, Literal "Only a name" Plain) ] ++ scenario.

(** A graph that already holds the synonym assertion. *)
Definition with_synonym : list triple := [ (C123, HAS_SYN, short_name) ].

(** A directory tree with the scenario in [/in.rdf]. *)
Definition scenario_fs : filesystem :=
  {[ ["in.rdf"] := File (RdfDoc scenario); ["data"] := Dir ]}.

(** The cross-reference literal of the scenario. *)
Definition xref_C999 : term := Literal "NCIT:C999" Plain.

(** Two comments of the same length. *)
Definition equal_lengths : list triple :=
  [ (C123, RDFS.seeAlso, Literal "NCIT:C999" Plain);
    (C123, RDFS.comment, Literal "ab" Plain);
    (C123, RDFS.comment, Literal "cd" Plain) ].

(** The nodes typed [owl:Axiom], one for each such triple. *)
Definition axiom_nodes (g : list triple) : list term :=
  subject <$> filter (λ t, predicate t = RDF.type ∧ object t = OWL.Axiom_) g.

(** The [rdfs:comment] triples of a graph. *)
Definition comment_triples (g : list triple) : list triple :=
  filter (λ t, predicate t = RDFS.comment) g.

(** A writer that accepts the graphs whose predicates are all IRIs. *)
Definition is_iri (x : term) : bool :=
  match x with
  | URIRef _ => true
  | _ => false
  end.

Definition iri_writer : xml_writer :=
  {| accepts := forallb (λ t, is_iri (predicate t));
     written_before_error := λ _, "<?xml" |}.

(** The scenario with a triple whose predicate is a blank node, and a
    directory tree that holds it in [/in.rdf] and an older output. *)
Definition unwritable : list triple :=
  scenario ++ [ (C123, BNode 0, short_name) ].

Definition unwritable_fs : filesystem :=
  {[ ["in.rdf"] := File (RdfDoc unwritable);
     ["out.rdf"] := File (RdfDoc scenario) ]}.

(** The visiting sequence of a run: the subjects the generator yields,
    in order. *)
Fixpoint visited_groups (objs : list term) (st : state) : list term :=
  match objs with
  | [] => []
  | o :: objs' =>
      let subjs := Graph.subjects_of (graph st) RDFS.seeAlso o in
      subjs ++
      match migrate_loop subjs st 0 with
      | Ok (st', _) => visited_groups objs' st'
      | Raise _ => []
      end
  end.

Definition visited (st : state) : list term :=
  visited_groups (Graph.keys (graph st) RDFS.seeAlso) st.

(** The subjects with a see-also triple whose triples a run changed. *)
Definition changed_subjects (st st' : state) : list term :=
  filter (λ c, filter (λ t, subject t = c) (graph st')
               ≠ filter (λ t, subject t = c) (graph st))
    (first_occurrences (Graph.subjects (graph st) RDFS.seeAlso)).

(** A class with two see-also objects, an IRI first, whose text is the
    second one, and four comments. *)
Definition shadowed_link : list triple :=
  [ (C123, RDFS.seeAlso, URIRef "C2");
    (C123, RDFS.seeAlso, Literal "C2" Plain);
    (C123, RDFS.comment, Literal "a" Plain);
    (C123, RDFS.comment, Literal "bb" Plain);
    (C123, RDFS.comment, Literal "ccc" Plain);
    (C123, RDFS.comment, Literal "dddd" Plain) ].

(** A directory tree whose [/in.rdf] is not an RDF document. *)
Definition broken_fs : filesystem :=
  {[ ["in.rdf"] := File (Bytes "not rdf"); ["data"] := Dir ]}.

(** The scenario with a label on its class and a second class that has a
    label and nothing else. *)
Definition label : term := URIRef "http://www.w3.org/2000/01/rdf-schema#label".
Definition C5 : term := ex "C5".
Definition with_label : list triple :=
  [ (C123, label, Literal "Concept" Plain);
    (C5, label, Literal "Unlinked" Plain) ] ++ scenario.

(** The state a run leaves for a document holding [ts]. *)
Definition migrated (ts : list triple) : state :=
  match migrate_graph (loaded ts) with
  | Ok (st', _) => st'
  | Raise _ => loaded ts
  end.

(** A literal without language tag and datatype. *)
Definition is_plain (x : term) : Prop :=
  match x with
  | Literal _ Plain => True
  | _ => False
  end.

#[export] Instance is_plain_dec x : Decision (is_plain x).
Proof. destruct x as [| | ? []]; simpl; apply _. Defined.

(** Every see-also object of the graph is a plain literal. *)
Definition plain_links (g : list triple) : Prop :=
  Forall (λ t, predicate t = RDFS.seeAlso → is_plain (object t)) g.

#[export] Instance plain_links_dec g : Decision (plain_links g).
Proof. unfold plain_links; apply _. Defined.

(** * Properties *)

Local Close Scope string_scope.

(** ** The store *)

Section Store.

Implicit Types (t x : triple) (g : list triple).

Lemma elem_of_add t x g : x ∈ Graph.add t g ↔ x = t ∨ x ∈ g.
Proof.
  unfold Graph.add. case_decide as Hin.
  - split; [auto | intros [-> | ?]; done].
  - rewrite elem_of_app, list_elem_of_singleton. tauto.
Qed.

Lemma elem_of_remove t x g : x ∈ Graph.remove t g ↔ x ∈ g ∧ x ≠ t.
Proof. unfold Graph.remove. rewrite list_elem_of_filter. tauto. Qed.

Lemma NoDup_add t g : NoDup g → NoDup (Graph.add t g).
Proof.
  intros Hnd. unfold Graph.add. case_decide as Hin; [done |].
  apply NoDup_app. repeat split; [done | | apply NoDup_singleton].
  intros y Hy ->%list_elem_of_singleton. done.
Qed.

Lemma NoDup_remove t g : NoDup g → NoDup (Graph.remove t g).
Proof. apply NoDup_filter. Qed.

Lemma length_add t g :
  length (Graph.add t g) = length g + (if decide (t ∈ g) then 0 else 1).
Proof.
  unfold Graph.add. case_decide; [lia |]. rewrite length_app. simpl. lia.
Qed.

(** A selection of the graph that does not select [t] does not see [t]
    come or go. *)
Lemma filter_add (P : triple → Prop) `{!∀ y, Decision (P y)} t g :
  ¬ P t → filter P (Graph.add t g) = filter P g.
Proof.
  intros HP. unfold Graph.add. case_decide; [done |].
  rewrite filter_app, (filter_cons_False P t []) by done.
  apply app_nil_r.
Qed.

Lemma filter_remove (P : triple → Prop) `{!∀ y, Decision (P y)} t g :
  ¬ P t → filter P (Graph.remove t g) = filter P g.
Proof.
  intros HP. unfold Graph.remove. induction g as [| y g IH]; [done |].
  destruct (decide (y = t)) as [-> | Hne].
  - rewrite (filter_cons_False (λ x, x ≠ t)) by (intros ?; done).
    rewrite (filter_cons_False P) by done. exact IH.
  - rewrite (filter_cons_True (λ x, x ≠ t)) by done.
    rewrite !(filter_cons P). rewrite IH. done.
Qed.

(** Removing one triple from a duplicate-free graph shortens a selection
    by at most one. *)
Lemma length_filter_remove (P : triple → Prop) `{!∀ y, Decision (P y)} t g :
  NoDup g → length (filter P g) ≤ S (length (filter P (Graph.remove t g))).
Proof.
  unfold Graph.remove. induction 1 as [| y g Hy Hnd IH]; [simpl; lia |].
  destruct (decide (y = t)) as [-> | Hne].
  - rewrite (filter_cons_False (λ x, x ≠ t)) by (intros ?; done).
    assert (filter (λ x, x ≠ t) g = g) as ->.
    { clear IH Hnd. induction g as [| z g IH]; [done |].
      rewrite filter_cons_True by (intros ->; apply Hy; left).
      f_equal. apply IH. intros ?. apply Hy. by right. }
    rewrite filter_cons. case_decide; simpl; lia.
  - rewrite (filter_cons_True (λ x, x ≠ t)) by done.
    rewrite !(filter_cons P). case_decide; simpl; lia.
Qed.

End Store.

(** ** The index by predicate and object *)

Section Index.

Context {A B : Type} `{EqDecision A, EqDecision B}.

Lemma elem_of_first_occurrences (l : list A) x :
  x ∈ first_occurrences l ↔ x ∈ l.
Proof.
  induction l as [| y l IH]; simpl; [done |].
  rewrite !elem_of_cons, list_elem_of_filter, IH.
  destruct (decide (x = y)); tauto.
Qed.

Lemma NoDup_first_occurrences (l : list A) : NoDup (first_occurrences l).
Proof.
  induction l as [| y l IH]; simpl; [constructor |].
  constructor; [| by apply NoDup_filter].
  rewrite list_elem_of_filter. tauto.
Qed.

Lemma first_occurrences_NoDup (l : list A) :
  NoDup l → first_occurrences l = l.
Proof.
  induction 1 as [| y l Hy Hnd IH]; simpl; [done |]. rewrite IH. f_equal.
  clear IH Hnd. induction l as [| z l IH]; [done |].
  rewrite filter_cons_True by (intros ->; apply Hy; left).
  f_equal. apply IH. intros ?. apply Hy. by right.
Qed.

Lemma bind_nils (ks : list B) : ks ≫= (λ _, @nil A) = [].
Proof. induction ks as [| k ks IH]; [done |]. by rewrite bind_cons, IH. Qed.

Lemma bind_app_fun (g1 g2 : B → list A) (ks : list B) :
  ks ≫= (λ b, g1 b ++ g2 b) ≡ₚ (ks ≫= g1) ++ (ks ≫= g2).
Proof.
  induction ks as [| k ks IH]; [done |].
  rewrite !bind_cons, IH, <- !app_assoc. f_equiv.
  rewrite !app_assoc. f_equiv. apply Permutation_app_comm.
Qed.

Lemma bind_single (ks : list B) k (x : A) :
  NoDup ks → k ∈ ks →
  ks ≫= (λ b, if decide (k = b) then [x] else []) = [x].
Proof.
  induction 1 as [| y ks Hy Hnd IH]; intros Hin; [by apply elem_of_nil in Hin |].
  rewrite bind_cons. destruct (decide (k = y)) as [-> | Hne].
  - simpl. f_equal. clear IH Hnd Hin.
    induction ks as [| z ks IH]; [done |].
    rewrite bind_cons, decide_False by (intros ->; apply Hy; left).
    apply IH. intros ?. apply Hy. by right.
  - apply elem_of_cons in Hin as [-> | Hin]; [done |]. by apply IH.
Qed.

(** Reading a list group by group, for keys that are distinct and cover
    it, yields its elements once each. *)
Lemma group_perm (f : A → B) (ks : list B) (l : list A) :
  NoDup ks → (∀ a, a ∈ l → f a ∈ ks) →
  ks ≫= (λ b, filter (λ a, f a = b) l) ≡ₚ l.
Proof.
  intros Hnd. induction l as [| x l IH]; intros Hcov.
  - by rewrite bind_nils.
  - transitivity (ks ≫= (λ b, (if decide (f x = b) then [x] else [])
                               ++ filter (λ a, f a = b) l)).
    { erewrite list_bind_ext; [reflexivity | | reflexivity].
      intros b. rewrite filter_cons. by case_decide. }
    rewrite bind_app_fun, bind_single by (done || apply Hcov; left).
    simpl. constructor. apply IH. intros a Ha. apply Hcov. by right.
Qed.

End Index.

Section Subjects.

Implicit Types (g : list triple) (c p o : term) (t : triple).

Lemma subjects_of_filter g p o :
  Graph.subjects_of g p o
  = subject <$> filter (λ t, object t = o) (filter (λ t, predicate t = p) g).
Proof.
  unfold Graph.subjects_of. f_equal. rewrite list_filter_filter.
  apply list_filter_iff. tauto.
Qed.

(** The subjects the index yields are those of the matching triples, in
    another order. *)
Lemma subjects_perm g p :
  Graph.subjects g p ≡ₚ subject <$> filter (λ t, predicate t = p) g.
Proof.
  unfold Graph.subjects, Graph.keys.
  set (l := filter (λ t, predicate t = p) g).
  rewrite <- (group_perm object (first_occurrences (object <$> l)) l) at 2.
  - induction (first_occurrences (object <$> l)) as [| o ks IH]; [done |].
    rewrite !bind_cons, fmap_app, <- IH. f_equiv.
    by rewrite subjects_of_filter.
  - apply NoDup_first_occurrences.
  - intros t Ht. apply elem_of_first_occurrences. by apply list_elem_of_fmap_2.
Qed.

Lemma elem_of_subjects_of g p o c :
  c ∈ Graph.subjects_of g p o ↔ (c, p, o) ∈ g.
Proof.
  unfold Graph.subjects_of. rewrite list_elem_of_fmap. split.
  - intros ([[s q] y] & -> & [[Hp Ho] Hin]%list_elem_of_filter).
    cbv [predicate object fst snd] in Hp, Ho. by subst.
  - intros Hin. exists (c, p, o). split; [done |].
    apply list_elem_of_filter. by split.
Qed.

Lemma elem_of_subjects g p c :
  c ∈ Graph.subjects g p ↔ ∃ o, (c, p, o) ∈ g.
Proof.
  rewrite subjects_perm, list_elem_of_fmap. split.
  - intros ([[s q] o] & -> & [Hp Hin]%list_elem_of_filter).
    cbv [predicate fst snd] in Hp. subst. by exists o.
  - intros [o Hin]. exists (c, p, o). split; [done |].
    by apply list_elem_of_filter.
Qed.

End Subjects.

(** ** [graft_axiom] *)

Section Graft.

Implicit Types (st : state) (t : triple) (subj prop tgt xref : term).

Lemma graft_axiom_next st subj prop tgt xref :
  next_bnode (graft_axiom st subj prop tgt xref) = S (next_bnode st).
Proof. reflexivity. Qed.

(** The graph after a graft: the assertion triple is added, then the five
    triples of the node [BNode (next_bnode st)], one [g.add] each. *)
Lemma graft_axiom_graph st subj prop tgt xref :
  graph (graft_axiom st subj prop tgt xref) =
  foldl (λ g t, Graph.add t g)
        (Graph.add (subj, prop, tgt) (graph st))
        (axiom_triples (BNode (next_bnode st)) subj prop tgt xref).
Proof. reflexivity. Qed.

Lemma elem_of_foldl_add t ts (g : list triple) :
  t ∈ foldl (λ g t, Graph.add t g) g ts ↔ t ∈ g ∨ t ∈ ts.
Proof.
  revert g. induction ts as [| a ts IH]; intros g; simpl.
  - rewrite elem_of_nil. tauto.
  - rewrite IH, elem_of_add, elem_of_cons. tauto.
Qed.

Lemma elem_of_graft_axiom st subj prop tgt xref t :
  t ∈ graph (graft_axiom st subj prop tgt xref) ↔
  t ∈ graph st ∨ t = (subj, prop, tgt) ∨
  t ∈ axiom_triples (BNode (next_bnode st)) subj prop tgt xref.
Proof. rewrite graft_axiom_graph, elem_of_foldl_add, elem_of_add. tauto. Qed.

Lemma NoDup_graft_axiom st subj prop tgt xref :
  NoDup (graph st) → NoDup (graph (graft_axiom st subj prop tgt xref)).
Proof.
  intros Hnd. unfold graft_axiom, g_add, new_BNode; simpl.
  repeat apply NoDup_add. done.
Qed.

(** A selection that selects none of the six triples is unchanged. *)
Lemma filter_graft_axiom (P : triple → Prop) `{!∀ y, Decision (P y)}
    st subj prop tgt xref :
  ¬ P (subj, prop, tgt) →
  (∀ t, t ∈ axiom_triples (BNode (next_bnode st)) subj prop tgt xref → ¬ P t) →
  filter P (graph (graft_axiom st subj prop tgt xref)) = filter P (graph st).
Proof.
  intros H0 Hax. unfold graft_axiom, g_add, new_BNode; simpl.
  rewrite !filter_add; first done; try done;
    apply Hax; unfold axiom_triples; set_solver.
Qed.

(** A triple whose subject is the next blank node is not in a fresh
    graph. *)
Lemma next_bnode_new st t :
  fresh st → subject t = BNode (next_bnode st) → t ∉ graph st.
Proof.
  intros Hf Hs Hin. unfold fresh in Hf. rewrite Forall_forall in Hf.
  destruct (Hf t Hin) as [Hb _]. rewrite Hs in Hb. simpl in Hb. lia.
Qed.

Lemma add_new t (g : list triple) : t ∉ g → Graph.add t g = g ++ [t].
Proof. intros Hin. unfold Graph.add. by case_decide. Qed.

End Graft.

(** C10. [graft_axiom] never removes anything: every triple of the graph
    before the call is still in the graph after it, whatever the
    arguments. *)
Theorem graft_axiom_preserves st subj prop tgt_literal xref_literal t :
  t ∈ graph st → t ∈ graph (graft_axiom st subj prop tgt_literal xref_literal).
Proof. intros Hin. apply elem_of_graft_axiom. by left. Qed.

Section GraftCount.

Implicit Types (st : state) (t : triple).

Lemma foldl_add_new (ts g : list triple) :
  NoDup ts → (∀ t, t ∈ ts → t ∉ g) →
  foldl (λ g t, Graph.add t g) g ts = g ++ ts.
Proof.
  revert g. induction ts as [| a ts IH]; intros g Hnd Hnew; simpl.
  - by rewrite app_nil_r.
  - apply NoDup_cons in Hnd as [Ha Hnd].
    rewrite add_new by (apply Hnew; left).
    rewrite IH, <- app_assoc; [done | done |].
    intros t Ht [Hin | ->%list_elem_of_singleton]%elem_of_app; [| done].
    apply (Hnew t); [by right | done].
Qed.

Lemma axiom_triples_subject ax subj prop tgt xref t :
  t ∈ axiom_triples ax subj prop tgt xref → subject t = ax.
Proof.
  unfold axiom_triples. rewrite !elem_of_cons, elem_of_nil.
  intros [-> | [-> | [-> | [-> | [-> | []]]]]]; reflexivity.
Qed.

Lemma NoDup_axiom_triples ax subj prop tgt xref :
  NoDup (axiom_triples ax subj prop tgt xref).
Proof.
  apply (NoDup_fmap_1 predicate). apply (bool_decide_unpack _).
  vm_compute. exact I.
Qed.

End GraftCount.

(** C2, as the store has it.  With [A] the node [BNode()] returns, a graft
    appends the five triples of [A], all of them new, after adding
    [(S, P, L)] with set semantics: the graph grows by six triples when
    [(S, P, L)] was absent and by five when it was already there. *)
Theorem graft_axiom_exact st S P L X :
  fresh st → term_below (next_bnode st) S →
  let A := BNode (next_bnode st) in
  let st' := graft_axiom st S P L X in
  graph st' = (Graph.add (S, P, L) (graph st) ++ axiom_triples A S P L X)
  ∧ Forall (λ t, (t ∉ graph st) ∧ t ≠ (S, P, L)) (axiom_triples A S P L X)
  ∧ NoDup (axiom_triples A S P L X)
  ∧ length (graph st') =
      length (graph st) + (if decide ((S, P, L) ∈ graph st) then 5 else 6).
Proof.
  intros Hf HS A st'.
  assert (Hnew : ∀ t, t ∈ axiom_triples A S P L X →
                      (t ∉ graph st) ∧ t ≠ (S, P, L)).
  { intros t Ht%axiom_triples_subject. split.
    - by apply next_bnode_new.
    - intros ->. unfold subject in Ht; simpl in Ht. subst S.
      simpl in HS. lia. }
  assert (Hgraph : graph st' =
            (Graph.add (S, P, L) (graph st) ++ axiom_triples A S P L X)).
  { unfold st'. rewrite graft_axiom_graph.
    apply foldl_add_new; [apply NoDup_axiom_triples |].
    intros t Ht Hin. destruct (Hnew t Ht) as [Hg Hne].
    apply elem_of_add in Hin as [-> | Hin]; done. }
  split; [exact Hgraph |].
  split; [by apply Forall_forall |].
  split; [apply NoDup_axiom_triples |].
  rewrite Hgraph, length_app, length_add. simpl.
  destruct (decide ((S, P, L) ∈ graph st)); repeat case_decide; done || lia.
Qed.

(** ** The loop body *)

Section Body.

Implicit Types (st : state) (cls c o : term) (t : triple).

Lemma length_insert_by {A} (key : A → nat) x (l : list A) :
  length (insert_by key x l) = S (length l).
Proof.
  induction l as [| y l IH]; simpl; [done |].
  case_match; simpl; by rewrite ?IH.
Qed.

Lemma length_sorted {A} (key : A → nat) (l : list A) :
  length (sorted key l) = length l.
Proof.
  induction l as [| x l IH]; simpl; [done |].
  unfold sorted in *. by rewrite length_insert_by, IH.
Qed.

(** The two ways an iteration ends normally. *)
Lemma migrate_body_inv st cls st' counted :
  migrate_body st cls = Ok (st', counted) →
  ∃ o, head (Graph.objects (graph st) cls RDFS.seeAlso) = Some o ∧
    let coms := Graph.objects (graph st) cls RDFS.comment in
    (length coms < 2 ∧ st' = st ∧ counted = false) ∨
    (2 ≤ length coms ∧ counted = true ∧
       ∃ name_lit def_lit,
         head (sorted text_length coms) = Some name_lit ∧
         last (sorted text_length coms) = Some def_lit ∧
         st' = rewritten st cls o name_lit def_lit).
Proof.
  unfold migrate_body. intros H.
  destruct (Graph.objects (graph st) cls RDFS.seeAlso) as [| o os] eqn:Ho;
    simpl in H; [done |].
  exists o. split; [done |]. simpl.
  destruct (Nat.ltb_spec (length (Graph.objects (graph st) cls RDFS.comment)) 2)
    as [Hlt | Hge].
  - left. by simplify_eq.
  - right. split; [done |].
    unfold first, final in H. fold text_length in H.
    destruct (head (sorted text_length _)) as [name_lit |] eqn:Hh;
      simpl in H; [| done].
    destruct (last (sorted text_length _)) as [def_lit |] eqn:Hl;
      simpl in H; [| done].
    simplify_eq. split; [done |]. by exists name_lit, def_lit.
Qed.

(** With a see-also object to read, the iteration ends normally. *)
Lemma migrate_body_ok st cls :
  Graph.objects (graph st) cls RDFS.seeAlso ≠ [] →
  ∃ r, migrate_body st cls = Ok r.
Proof.
  intros Hne. unfold migrate_body.
  destruct (Graph.objects (graph st) cls RDFS.seeAlso) as [| o os]; [done |].
  simpl.
  destruct (Nat.ltb_spec (length (Graph.objects (graph st) cls RDFS.comment)) 2)
    as [Hlt | Hge]; [by eexists |].
  fold text_length.
  pose proof (length_sorted text_length
                (Graph.objects (graph st) cls RDFS.comment)) as Hlen.
  destruct (sorted text_length _) as [| x l] eqn:Hs; simpl in Hlen; [lia |].
  unfold first, final. simpl.
  destruct (last (x :: l)) eqn:Hl; simpl; [by eexists |].
  by apply last_None in Hl.
Qed.

End Body.

(** ** Steps 3 and 4 *)

Section Rewritten.

Implicit Types (st : state) (cls c o : term) (t : triple).

Lemma rewritten_next st cls o name_lit def_lit :
  next_bnode (rewritten st cls o name_lit def_lit) = S (S (next_bnode st)).
Proof. reflexivity. Qed.

Lemma elem_of_rewritten st cls o name_lit def_lit t :
  t ∈ graph (rewritten st cls o name_lit def_lit) ↔
  (t ∈ graph st ∨ t ∈ added st cls o name_lit def_lit) ∧
  t ∉ removed cls o name_lit def_lit.
Proof.
  unfold rewritten, g_remove; cbn [graph next_bnode].
  rewrite !elem_of_remove, !elem_of_graft_axiom, graft_axiom_next.
  unfold added, removed. rewrite elem_of_app, !elem_of_cons, elem_of_nil.
  tauto.
Qed.

Lemma NoDup_rewritten st cls o name_lit def_lit :
  NoDup (graph st) → NoDup (graph (rewritten st cls o name_lit def_lit)).
Proof.
  intros Hnd. unfold rewritten, g_remove; cbn [graph next_bnode].
  by repeat (apply NoDup_remove || apply NoDup_graft_axiom).
Qed.

(** A selection that selects none of the added triples and none of the
    removed ones is unchanged. *)
Lemma filter_rewritten (P : triple → Prop) `{!∀ y, Decision (P y)}
    st cls o name_lit def_lit :
  (∀ t, t ∈ added st cls o name_lit def_lit → ¬ P t) →
  (∀ t, t ∈ removed cls o name_lit def_lit → ¬ P t) →
  filter P (graph (rewritten st cls o name_lit def_lit)) = filter P (graph st).
Proof.
  intros Hadd Hrem. unfold rewritten, g_remove; cbn [graph next_bnode].
  rewrite !filter_remove
    by (apply Hrem; unfold removed; rewrite !elem_of_cons; auto).
  rewrite !filter_graft_axiom; first done.
  all: try intros t Ht; apply Hadd; unfold added;
    rewrite ?graft_axiom_next in *; apply elem_of_app;
    (left + right);
    (apply list_elem_of_here || (apply list_elem_of_further; assumption)).
Qed.

(** Nothing that is added has [rdfs:comment] or [rdfs:seeAlso] as its
    predicate. *)
Lemma added_predicate st cls o name_lit def_lit t :
  t ∈ added st cls o name_lit def_lit →
  predicate t ≠ RDFS.comment ∧ predicate t ≠ RDFS.seeAlso.
Proof.
  unfold added, axiom_triples.
  rewrite elem_of_app, !elem_of_cons, !elem_of_nil.
  intros H; repeat destruct H as [H | H]; try done; subst t; by vm_compute.
Qed.

(** What is added has the class or one of the two new nodes as subject. *)
Lemma added_subject st cls o name_lit def_lit t :
  t ∈ added st cls o name_lit def_lit →
  subject t = cls ∨ subject t = BNode (next_bnode st)
  ∨ subject t = BNode (S (next_bnode st)).
Proof.
  unfold added. rewrite elem_of_app, !elem_of_cons.
  intros [[-> | Ht] | [-> | Ht]]; auto;
    apply axiom_triples_subject in Ht; auto.
Qed.

Lemma removed_subject cls o name_lit def_lit t :
  t ∈ removed cls o name_lit def_lit → subject t = cls.
Proof.
  unfold removed. rewrite !elem_of_cons, elem_of_nil.
  intros [-> | [-> | [-> | []]]]; reflexivity.
Qed.

End Rewritten.

(** ** One iteration: what it leaves alone *)

Section Frame.

Implicit Types (st : state) (cls c o : term) (t : triple).

Lemma length_objects (g : list triple) c p :
  length (Graph.objects g c p) =
  length (filter (λ t, subject t = c ∧ predicate t = p) g).
Proof. unfold Graph.objects. apply length_fmap. Qed.

(** The objects read for [c] depend on the triples of [c] only. *)
Lemma objects_of_subject (g g' : list triple) c p :
  filter (λ t, subject t = c) g = filter (λ t, subject t = c) g' →
  Graph.objects g c p = Graph.objects g' c p.
Proof.
  intros H. unfold Graph.objects. f_equal.
  assert (Hsplit : ∀ l : list triple,
            filter (λ t, subject t = c ∧ predicate t = p) l =
            filter (λ t, predicate t = p) (filter (λ t, subject t = c) l)).
  { intros l. rewrite list_filter_filter. apply list_filter_iff. tauto. }
  by rewrite !Hsplit, H.
Qed.

(** An iteration on [cls] keeps the graph duplicate free and takes at
    most one see-also triple, from [cls] only. *)
Lemma migrate_body_seeAlso st cls st' counted c :
  migrate_body st cls = Ok (st', counted) → NoDup (graph st) →
  NoDup (graph st') ∧
  length (Graph.objects (graph st) c RDFS.seeAlso) ≤
    length (Graph.objects (graph st') c RDFS.seeAlso)
    + (if decide (c = cls) then 1 else 0).
Proof.
  intros (o & _ & [(_ & -> & _) | (_ & _ & name_lit & def_lit & _ & _ & ->)])
    %migrate_body_inv Hnd.
  { split; [done | lia]. }
  split; [by apply NoDup_rewritten |].
  rewrite !length_objects.
  set (P := λ t : triple, subject t = c ∧ predicate t = RDFS.seeAlso).
  unfold rewritten, g_remove; cbn [graph next_bnode].
  match goal with
  | |- context [Graph.remove ?r ?g] =>
      assert (Hpre : filter P g = filter P (graph st));
      [| assert (Hnd' : NoDup g)
           by (by repeat (apply NoDup_remove || apply NoDup_graft_axiom));
         pose proof (length_filter_remove P r g Hnd') as Hlen;
         rewrite Hpre in Hlen ]
  end.
  { rewrite !filter_remove by (intros [_ Hp]; by vm_compute in Hp).
    rewrite !filter_graft_axiom; first done.
    all: try (intros [_ Hp]; by vm_compute in Hp).
    all: intros t Ht [_ Hp]; unfold axiom_triples in Ht;
      rewrite !elem_of_cons, elem_of_nil in Ht;
      repeat destruct Ht as [Ht | Ht]; try done; subst t; by vm_compute in Hp. }
  case_decide as Hc; [lia |].
  rewrite filter_remove in Hlen |- *; [| intros [Hs _]; by simpl in Hs ..].
  rewrite Hpre. lia.
Qed.

(** An iteration on [cls] does not touch the triples of another subject
    [c] issued earlier, nor those of [cls] itself when it has fewer than
    two comments. *)
Lemma migrate_body_frame st cls st' counted c :
  migrate_body st cls = Ok (st', counted) →
  term_below (next_bnode st) c →
  c ≠ cls ∨ length (Graph.objects (graph st) c RDFS.comment) < 2 →
  filter (λ t, subject t = c) (graph st') = filter (λ t, subject t = c) (graph st)
  ∧ term_below (next_bnode st') c
  ∧ (c = cls → counted = false).
Proof.
  intros (o & _ & [(Hlt & -> & ->) | (Hge & -> & name_lit & def_lit & _ & _ & ->)])
    %migrate_body_inv Hc Hside.
  { done. }
  assert (Hne : c ≠ cls).
  { destruct Hside as [? | Hlt]; [done |]. intros ->. lia. }
  split; [| split; [| done]].
  - apply filter_rewritten.
    + intros t [Ht | [Ht | Ht]]%added_subject Hs; rewrite Ht in Hs;
        subst c; simpl in Hc; done || lia.
    + intros t Ht%removed_subject Hs. congruence.
  - rewrite rewritten_next. destruct c; simpl in *; lia || done.
Qed.

End Frame.

(** ** The loop *)

Section Loop.

Implicit Types (st : state) (cls c : term) (subjs : list term).

(** The counter counts the rewrites. *)
Lemma migrate_loop_count subjs st n st' m :
  migrate_loop subjs st n = Ok (st', m) → m = n + length (processed subjs st).
Proof.
  revert st n. induction subjs as [| cls subjs IH]; intros st n H; simpl in *.
  - simplify_eq. lia.
  - destruct (migrate_body st cls) as [[st1 counted] | e]; simpl in H; [| done].
    apply IH in H. rewrite length_app. destruct counted; simpl; lia.
Qed.

(** A subject is rewritten at most as often as it is visited. *)
Lemma processed_visits subjs st c :
  length (filter (λ x, x = c) (processed subjs st)) ≤
  length (filter (λ x, x = c) subjs).
Proof.
  revert st. induction subjs as [| cls subjs IH]; intros st; simpl; [done |].
  destruct (migrate_body st cls) as [[st1 counted] | e]; simpl; [| lia].
  specialize (IH st1). rewrite filter_app, length_app, (filter_cons _ cls subjs).
  destruct counted; simpl.
  - rewrite (filter_cons _ cls []), filter_nil. case_decide; simpl; lia.
  - case_decide; simpl; lia.
Qed.

(** The store yields a subject once for each of its see-also triples. *)
Lemma subjects_visits (g : list triple) c p :
  length (filter (λ x, x = c) (Graph.subjects g p)) =
  length (Graph.objects g c p).
Proof.
  rewrite length_objects, subjects_perm.
  induction g as [| t g IH]; [done |].
  rewrite (filter_cons (λ t, predicate t = p)).
  rewrite (filter_cons (λ t, subject t = c ∧ predicate t = p)).
  destruct (decide (predicate t = p)) as [Hp | Hp].
  - rewrite fmap_cons, (filter_cons (λ x, x = c)).
    destruct (decide (subject t = c)) as [Hs | Hs].
    + rewrite decide_True by done. simpl. by rewrite IH.
    + rewrite decide_False by tauto. done.
  - rewrite decide_False by tauto. done.
Qed.

(** The subjects recorded for one object are no more than the see-also
    triples of each. *)
Lemma subjects_of_visits (g : list triple) c p o :
  length (filter (λ x, x = c) (Graph.subjects_of g p o)) ≤
  length (Graph.objects g c p).
Proof.
  rewrite length_objects. unfold Graph.subjects_of.
  induction g as [| t g IH]; [done |].
  rewrite (filter_cons (λ t, predicate t = p ∧ object t = o)).
  rewrite (filter_cons (λ t, subject t = c ∧ predicate t = p)).
  destruct (decide (predicate t = p ∧ object t = o)) as [[Hp Ho] | Hno].
  - rewrite fmap_cons, (filter_cons (λ x, x = c)).
    destruct (decide (subject t = c)) as [Hs | Hs].
    + rewrite decide_True by done. simpl. lia.
    + case_decide; simpl; lia.
  - case_decide; simpl; lia.
Qed.

(** As long as no subject is visited more often than it has see-also
    triples left, the loop runs to its end. *)
Lemma migrate_loop_total subjs st n :
  NoDup (graph st) →
  (∀ c, length (filter (λ x, x = c) subjs) ≤
        length (Graph.objects (graph st) c RDFS.seeAlso)) →
  ∃ r, migrate_loop subjs st n = Ok r.
Proof.
  revert st n. induction subjs as [| cls subjs IH]; intros st n Hnd Hvis; simpl.
  - by eexists.
  - destruct (migrate_body_ok st cls) as [[st1 counted] Hbody].
    { specialize (Hvis cls). rewrite filter_cons_True in Hvis by done.
      intros Hnil. rewrite Hnil in Hvis. simpl in Hvis. lia. }
    rewrite Hbody. simpl. apply IH.
    + by eapply migrate_body_seeAlso.
    + intros c. specialize (Hvis c).
      destruct (migrate_body_seeAlso _ _ _ _ c Hbody Hnd) as [_ Hle].
      rewrite filter_cons in Hvis.
      destruct (decide (cls = c)) as [-> | Hne].
      * rewrite decide_True in Hle by done. simpl in Hvis. lia.
      * rewrite decide_False in Hle by done. lia.
Qed.

(** The triples of a subject with fewer than two comments survive the
    whole loop, and the subject is never counted. *)
Lemma migrate_loop_frame subjs st n st' m c :
  migrate_loop subjs st n = Ok (st', m) →
  term_below (next_bnode st) c →
  length (Graph.objects (graph st) c RDFS.comment) < 2 →
  filter (λ t, subject t = c) (graph st') = filter (λ t, subject t = c) (graph st)
  ∧ c ∉ processed subjs st.
Proof.
  revert st n. induction subjs as [| cls subjs IH]; intros st n H Hc Hlt;
    simpl in *.
  - simplify_eq. split; [done | apply not_elem_of_nil].
  - destruct (migrate_body st cls) as [[st1 counted] | e] eqn:Hbody;
      simpl in H; [| done].
    destruct (migrate_body_frame _ _ _ _ c Hbody Hc) as (Hsame & Hc1 & Hskip);
      [by right |].
    destruct (IH _ _ H Hc1) as [Hrest Hnot].
    { by rewrite (objects_of_subject _ (graph st)). }
    split; [by rewrite Hrest |].
    intros [Hin | Hin]%elem_of_app; [| done].
    destruct counted; [| by apply elem_of_nil in Hin].
    apply list_elem_of_singleton in Hin. by specialize (Hskip Hin).
Qed.

Lemma migrate_loop_app subjs1 subjs2 st n st1 n1 :
  migrate_loop subjs1 st n = Ok (st1, n1) →
  migrate_loop (subjs1 ++ subjs2) st n = migrate_loop subjs2 st1 n1.
Proof.
  revert st n. induction subjs1 as [| cls subjs1 IH]; intros st n H;
    simpl in *.
  - by simplify_eq.
  - destruct (migrate_body st cls) as [[st' counted] | e]; simpl in *; [| done].
    by apply IH.
Qed.

(** The counter does not steer the loop. *)
Lemma migrate_loop_from subjs st n :
  migrate_loop subjs st n =
  match migrate_loop subjs st 0 with
  | Ok (st', m) => Ok (st', n + m)
  | Raise e => Raise e
  end.
Proof.
  revert st n. induction subjs as [| cls subjs IH]; intros st n; simpl.
  - by rewrite Nat.add_0_r.
  - destruct (migrate_body st cls) as [[st1 counted] | e]; simpl; [| done].
    rewrite (IH st1 (if counted then n + 1 else n)).
    rewrite (IH st1 (if counted then 1 else 0)).
    destruct (migrate_loop subjs st1 0) as [[st' m] | e]; [| done].
    destruct counted; do 2 f_equal; lia.
Qed.

Lemma migrate_loop_NoDup subjs st n st' m :
  migrate_loop subjs st n = Ok (st', m) → NoDup (graph st) → NoDup (graph st').
Proof.
  revert st n. induction subjs as [| cls subjs IH]; intros st n H Hnd;
    simpl in H.
  - by simplify_eq.
  - destruct (migrate_body st cls) as [[st1 counted] | e] eqn:Hbody;
      simpl in H; [| done].
    eapply IH; [exact H |]. by eapply (migrate_body_seeAlso _ _ _ _ cls).
Qed.

(** The run is the loop over the subjects the generator yields. *)
Lemma migrate_groups_loop objs st n :
  migrate_groups objs st n = migrate_loop (visited_groups objs st) st n.
Proof.
  revert st n. induction objs as [| o objs IH]; intros st n; simpl; [done |].
  rewrite (migrate_loop_from (Graph.subjects_of (graph st) RDFS.seeAlso o) st n).
  destruct (migrate_loop (Graph.subjects_of (graph st) RDFS.seeAlso o) st 0)
    as [[st1 m] | e] eqn:Hgroup; simpl.
  - rewrite (migrate_loop_app _ _ _ _ st1 (n + m)).
    + apply IH.
    + by rewrite migrate_loop_from, Hgroup.
  - by rewrite app_nil_r, migrate_loop_from, Hgroup.
Qed.

Lemma migrate_graph_loop st :
  migrate_graph st = migrate_loop (visited st) st 0.
Proof. apply migrate_groups_loop. Qed.

(** Whatever the objects the generator goes through, the loop runs to
    its end on a duplicate-free graph. *)
Lemma migrate_groups_total objs st n :
  NoDup (graph st) → ∃ r, migrate_groups objs st n = Ok r.
Proof.
  revert st n. induction objs as [| o objs IH]; intros st n Hnd; simpl.
  - by eexists.
  - destruct (migrate_loop_total
                (Graph.subjects_of (graph st) RDFS.seeAlso o) st n Hnd)
      as [[st1 n1] Hgroup].
    { intros c. apply subjects_of_visits. }
    rewrite Hgroup. simpl. apply IH. by eapply migrate_loop_NoDup.
Qed.

End Loop.

(** X1. [migrate_graph] runs to its end on every duplicate-free graph:
    neither [next] nor the indexing of [coms_sorted] raises. *)
Theorem migrate_graph_total st :
  NoDup (graph st) → ∃ st' processed_count, migrate_graph st = Ok (st', processed_count).
Proof.
  intros Hnd.
  destruct (migrate_groups_total (Graph.keys (graph st) RDFS.seeAlso) st 0 Hnd)
    as [[st' n] H].
  by exists st', n.
Qed.

(** ** The stable sort and the choice of the two comments *)

Section Sorted.

Context {A : Type} (key : A → nat).

Implicit Types (x y : A) (l : list A).

Lemma insert_by_perm x l : insert_by key x l ≡ₚ x :: l.
Proof.
  induction l as [| y l IH]; simpl; [done |].
  case_match; [done |]. rewrite IH. apply Permutation_swap.
Qed.

Lemma sorted_perm l : sorted key l ≡ₚ l.
Proof.
  induction l as [| x l IH]; simpl; [done |].
  unfold sorted in *. simpl. by rewrite insert_by_perm, IH.
Qed.

Lemma head_insert_by x l :
  head (insert_by key x l) =
  match head l with
  | Some y => if (key x <=? key y)%nat then Some x else Some y
  | None => Some x
  end.
Proof. destruct l as [| y l]; simpl; [done |]. by case_match. Qed.

(** Inserting [x] puts it last exactly when it is longer than everything
    already there. *)
Lemma last_insert_by x l :
  (last (insert_by key x l) = Some x ∧ Forall (λ y, key y < key x) l)
  ∨ (l ≠ [] ∧ last (insert_by key x l) = last l ∧ Exists (λ y, key x ≤ key y) l).
Proof.
  induction l as [| y l IH]; simpl.
  - left. by split.
  - destruct (Nat.leb_spec (key x) (key y)) as [Hle | Hgt].
    + right. split; [done |]. split; [| by left].
      by rewrite last_cons_cons.
    + destruct IH as [[Hlast Hall] | (Hne & Hlast & Hex)].
      * left. split; [| by constructor].
        rewrite last_cons, Hlast. done.
      * right. split; [done |]. split; [| by right].
        rewrite !last_cons, Hlast.
        destruct (last l) eqn:Hl; [done |]. by apply last_None in Hl.
Qed.

(** [sorted(l)[0]] is the first element of [l] among those of least key. *)
Lemma head_sorted l :
  l ≠ [] →
  ∃ x before after,
    head (sorted key l) = Some x ∧ l = before ++ x :: after ∧
    Forall (λ y, key x < key y) before ∧ Forall (λ y, key x ≤ key y) after.
Proof.
  induction l as [| a l IH]; [done |]. intros _.
  unfold sorted in *. simpl. rewrite head_insert_by.
  destruct l as [| b l].
  { exists a, [], []. by repeat split. }
  destruct IH as (x & before & after & -> & Hl & Hb & Ha); [done |].
  destruct (Nat.leb_spec (key a) (key x)) as [Hle | Hgt].
  - exists a, [], (b :: l). repeat split; [done |].
    rewrite Hl. apply Forall_app. split.
    + eapply Forall_impl; [exact Hb |]. simpl. lia.
    + constructor; [done |]. eapply Forall_impl; [exact Ha |]. simpl. lia.
  - exists x, (a :: before), after. rewrite Hl. repeat split; [| done].
    by constructor.
Qed.

(** [sorted(l)[-1]] is the last element of [l] among those of greatest
    key. *)
Lemma last_sorted l :
  l ≠ [] →
  ∃ x before after,
    last (sorted key l) = Some x ∧ l = before ++ x :: after ∧
    Forall (λ y, key y ≤ key x) before ∧ Forall (λ y, key y < key x) after.
Proof.
  induction l as [| a l IH]; [done |]. intros _.
  unfold sorted in *. simpl.
  destruct (last_insert_by a (foldr (insert_by key) [] l))
    as [[Hlast Hall] | (Hne & Hlast & Hex)].
  - exists a, [], l. repeat split; [done | done |].
    by rewrite <- (sorted_perm l).
  - destruct l as [| b l]; [done |].
    destruct IH as (x & before & after & Hx & Hl & Hb & Ha); [done |].
    exists x, (a :: before), after. rewrite Hlast, Hx.
    split; [done |]. split; [by rewrite Hl |]. split; [| done].
    constructor; [| done].
    apply Exists_exists in Hex as (y & Hy & Hay).
    assert (Hyl : y ∈ before ++ x :: after).
    { rewrite <- Hl. rewrite <- (sorted_perm (b :: l)). exact Hy. }
    apply elem_of_app in Hyl as [Hin | Hin].
    + rewrite Forall_forall in Hb. specialize (Hb y Hin). lia.
    + apply elem_of_cons in Hin as [-> | Hin]; [done |].
      rewrite Forall_forall in Ha. specialize (Ha y Hin). lia.
Qed.

End Sorted.

(** ** Loaded graphs *)

Lemma NoDup_foldl_add (ts g : list triple) :
  NoDup g → NoDup (foldl (λ g t, Graph.add t g) g ts).
Proof.
  revert g. induction ts as [| t ts IH]; intros g Hnd; simpl; [done |].
  apply IH. by apply NoDup_add.
Qed.

Lemma loaded_NoDup ts : NoDup (graph (loaded ts)).
Proof. apply NoDup_foldl_add. constructor. Qed.

(** The loaded graph holds the triples of the document. *)
Lemma elem_of_loaded ts t : t ∈ graph (loaded ts) ↔ t ∈ ts.
Proof.
  unfold loaded; simpl. rewrite elem_of_foldl_add, elem_of_nil. tauto.
Qed.

Lemma fresh_supply_after (g : list triple) : fresh (State g (supply_after g)).
Proof.
  unfold fresh, supply_after; simpl. apply Forall_forall.
  intros t Ht.
  assert (Hle : ∀ x id, x ∈ [subject t; predicate t; object t] →
            bnode_id x = Some id →
            id ≤ max_list (g ≫= triple_ids)).
  { intros x id Hx Hid. apply max_list_elem_of_le.
    apply list_elem_of_bind. exists t. split; [| done].
    unfold triple_ids. apply list_elem_of_omap. by exists x. }
  unfold triple_below.
  repeat split;
    match goal with
    | |- term_below _ ?x =>
        destruct x as [| id |] eqn:Hx; simpl; try done;
        specialize (Hle (BNode id) id); rewrite <- Hx in Hle at 1;
        assert (id ≤ max_list (g ≫= triple_ids))
          by (apply Hle; [rewrite !elem_of_cons; auto | done]); lia
    end.
Qed.

Lemma loaded_fresh ts : fresh (loaded ts).
Proof. apply fresh_supply_after. Qed.

(** A subject of the graph was issued before [next_bnode]. *)
Lemma subjects_below st c p :
  fresh st → c ∈ Graph.subjects (graph st) p → term_below (next_bnode st) c.
Proof.
  intros Hf [o Ht]%elem_of_subjects.
  unfold fresh in Hf. rewrite Forall_forall in Hf. by destruct (Hf _ Ht).
Qed.

(** * The claims *)

(** Goals on closed terms are settled by evaluation. *)
Ltac by_evaluation :=
  lazymatch goal with
  | |- _ = _ => vm_compute; reflexivity
  | |- _ => apply (bool_decide_unpack _); vm_compute; exact I
  end.

(** C1. End to end: on the graph with the single class [ex:C123] and its
    three triples (in whatever order the store holds them) [migrate]
    counts one processed class; the output graph holds the definition and
    the synonym assertions, exactly two axiom nodes, both new and both
    carrying the cross-reference [NCIT:C999], and no see-also or comment
    triple of [C123]. *)
Theorem migrate_scenario :
  Forall (λ ts, ∃ st',
    migrate_graph (loaded ts) = Ok (st', 1)
    ∧ (C123, IAO_DEF, long_definition) ∈ graph st'
    ∧ (C123, HAS_SYN, short_name) ∈ graph st'
    ∧ Graph.subjects
        (filter (λ t, object t = OWL.Axiom_) (graph st')) RDF.type
      = [BNode 1; BNode 2]
    ∧ Forall (λ t, subject t ≠ BNode 1 ∧ subject t ≠ BNode 2) ts
    ∧ Graph.objects (graph st') (BNode 1) HAS_XREF = [Literal "NCIT:C999" Plain]
    ∧ Graph.objects (graph st') (BNode 2) HAS_XREF = [Literal "NCIT:C999" Plain]
    ∧ Graph.objects (graph st') C123 RDFS.seeAlso = []
    ∧ Graph.objects (graph st') C123 RDFS.comment = []
    ∧ length (graph st') = 12)
  (permutations scenario).
Proof.
  let l := eval vm_compute in (permutations scenario) in
  change (permutations scenario) with l.
  repeat first [apply Forall_nil_2 | apply Forall_cons_2].
  all: eexists; split; [vm_compute; reflexivity |].
  all: repeat split; by_evaluation.
Qed.

(** C3 on inputs whose see-also object is not a plain literal: the class
    is processed and its two comments go, but the see-also triple that was
    read is still in the output graph, for a language-tagged literal, a
    typed literal and an IRI alike. *)
Theorem seeAlso_not_removed :
  Forall (λ o, ∃ st',
    migrate_graph (loaded (linked_by o)) = Ok (st', 1)
    ∧ (C123, RDFS.seeAlso, o) ∈ graph st'
    ∧ Graph.objects (graph st') C123 RDFS.comment = [])
  [tagged_link; typed_link; iri_link].
Proof.
  repeat first [apply Forall_nil_2 | apply Forall_cons_2].
  all: eexists; split; [vm_compute; reflexivity |].
  all: repeat split; by_evaluation.
Qed.

(** The part of the cleanup that holds for every processed class: the two
    comments that were chosen and the see-also triple whose object is the
    plain literal of the text that was read are not in the graph after the
    iteration, and no later iteration brings a comment or a see-also
    triple back. *)
Lemma migrate_body_cleanup st cls st' :
  migrate_body st cls = Ok (st', true) →
  ∃ o name_lit def_lit,
    head (Graph.objects (graph st) cls RDFS.seeAlso) = Some o
    ∧ head (sorted text_length (Graph.objects (graph st) cls RDFS.comment))
      = Some name_lit
    ∧ last (sorted text_length (Graph.objects (graph st) cls RDFS.comment))
      = Some def_lit
    ∧ Forall (λ t, t ∉ graph st')
        [ (cls, RDFS.comment, name_lit);
          (cls, RDFS.comment, def_lit);
          (cls, RDFS.seeAlso, Literal (str o) Plain) ].
Proof.
  intros (o & Ho & [(_ & _ & [=]) | (_ & _ & name_lit & def_lit & Hn & Hd & ->)])
    %migrate_body_inv.
  exists o, name_lit, def_lit. repeat split; try done.
  apply Forall_forall. intros t Ht [_ Hrem]%elem_of_rewritten.
  by apply Hrem.
Qed.

Lemma migrate_loop_no_new subjs st n st' m t :
  migrate_loop subjs st n = Ok (st', m) →
  predicate t = RDFS.comment ∨ predicate t = RDFS.seeAlso →
  t ∈ graph st' → t ∈ graph st.
Proof.
  revert st n. induction subjs as [| cls subjs IH]; intros st n H Hp Hin;
    simpl in H.
  - by simplify_eq.
  - destruct (migrate_body st cls) as [[st1 counted] | e] eqn:Hbody;
      simpl in H; [| done].
    specialize (IH _ _ H Hp Hin).
    apply migrate_body_inv in Hbody
      as (o & _ & [(_ & -> & _) | (_ & _ & name_lit & def_lit & _ & _ & ->)]);
      [done |].
    apply elem_of_rewritten in IH as [[? | Hadd] _]; [done |].
    apply added_predicate in Hadd. tauto.
Qed.

(** X2. The cleanup as the code achieves it: once the loop has processed a
    class, the two comments it chose and the see-also triple whose object
    is the plain literal of the text it read are absent from the graph at
    the end of the run. *)
Theorem cleanup_at_end subjs1 cls subjs2 st n st1 n1 st2 st' m :
  migrate_loop subjs1 st n = Ok (st1, n1) →
  migrate_body st1 cls = Ok (st2, true) →
  migrate_loop (subjs1 ++ cls :: subjs2) st n = Ok (st', m) →
  ∃ o name_lit def_lit,
    head (Graph.objects (graph st1) cls RDFS.seeAlso) = Some o
    ∧ head (sorted text_length (Graph.objects (graph st1) cls RDFS.comment))
      = Some name_lit
    ∧ last (sorted text_length (Graph.objects (graph st1) cls RDFS.comment))
      = Some def_lit
    ∧ Forall (λ t, t ∉ graph st')
        [ (cls, RDFS.comment, name_lit);
          (cls, RDFS.comment, def_lit);
          (cls, RDFS.seeAlso, Literal (str o) Plain) ].
Proof.
  intros Hpre Hbody Hrun.
  rewrite (migrate_loop_app _ _ _ _ _ _ Hpre) in Hrun. simpl in Hrun.
  rewrite Hbody in Hrun. simpl in Hrun.
  destruct (migrate_body_cleanup _ _ _ Hbody)
    as (o & name_lit & def_lit & Ho & Hn & Hd & Hgone).
  exists o, name_lit, def_lit. repeat split; try done.
  rewrite Forall_forall in Hgone |- *. intros t Ht Hin.
  apply (Hgone t Ht). eapply migrate_loop_no_new; [exact Hrun | | exact Hin].
  rewrite !elem_of_cons, elem_of_nil in Ht.
  destruct Ht as [-> | [-> | [-> | []]]]; auto.
Qed.

(** C5. A class with a see-also triple and fewer than two comments keeps
    all its triples, in their order, and is not among the classes the run
    counts. *)
Theorem skip_invariant st cls st' processed_count :
  fresh st →
  cls ∈ Graph.subjects (graph st) RDFS.seeAlso →
  length (Graph.objects (graph st) cls RDFS.comment) < 2 →
  migrate_graph st = Ok (st', processed_count) →
  let log := processed (visited st) st in
  filter (λ t, subject t = cls) (graph st')
    = filter (λ t, subject t = cls) (graph st)
  ∧ (cls ∉ log)
  ∧ processed_count = length log.
Proof.
  intros Hf Hin Hlt H log. rewrite migrate_graph_loop in H.
  pose proof (subjects_below _ _ _ Hf Hin) as Hc.
  destruct (migrate_loop_frame _ _ _ _ _ cls H Hc Hlt) as [Hsame Hnot].
  repeat split; [done | done |]. by apply migrate_loop_count in H.
Qed.

(** C7. When a class is processed, the name is the first comment, in the
    order the store yields them, among those of least text length, and the
    definition is a comment of greatest text length (the last such one);
    the name is asserted as synonym and the definition as definition. *)
Theorem name_and_definition st cls st' :
  migrate_body st cls = Ok (st', true) →
  let coms := Graph.objects (graph st) cls RDFS.comment in
  ∃ name_lit def_lit before after before' after',
    coms = before ++ name_lit :: after
    ∧ Forall (λ c, text_length name_lit < text_length c) before
    ∧ Forall (λ c, text_length name_lit ≤ text_length c) after
    ∧ coms = before' ++ def_lit :: after'
    ∧ Forall (λ c, text_length c ≤ text_length def_lit) before'
    ∧ Forall (λ c, text_length c < text_length def_lit) after'
    ∧ (cls, HAS_SYN, name_lit) ∈ graph st'
    ∧ (cls, IAO_DEF, def_lit) ∈ graph st'.
Proof.
  intros (o & _ & [(_ & _ & [=]) | (Hge & _ & name_lit & def_lit & Hn & Hd & ->)])
    %migrate_body_inv coms.
  fold coms in Hn, Hd, Hge.
  assert (Hne : coms ≠ []) by (intros Hnil; rewrite Hnil in Hge; simpl in Hge; lia).
  destruct (head_sorted text_length coms Hne)
    as (x & before & after & Hx & Hsplit & Hb & Ha).
  destruct (last_sorted text_length coms Hne)
    as (y & before' & after' & Hy & Hsplit' & Hb' & Ha').
  rewrite Hx in Hn. rewrite Hy in Hd. simplify_eq.
  exists name_lit, def_lit, before, after, before', after'.
  repeat split; try done.
  - apply elem_of_rewritten. split.
    + right. unfold added. apply elem_of_app. right. apply list_elem_of_here.
    + unfold removed. rewrite !elem_of_cons, elem_of_nil.
      intros [H | [H | [H | []]]]; by vm_compute in H.
  - apply elem_of_rewritten. split.
    + right. unfold added. apply elem_of_app. left. apply list_elem_of_here.
    + unfold removed. rewrite !elem_of_cons, elem_of_nil.
      intros [H | [H | [H | []]]]; by vm_compute in H.
Qed.

(** C8. Normalisation is idempotent: a text that starts with [NCIT:] is
    returned as it is, any other text gets the prefix once, and
    normalising twice is normalising once. *)
Theorem ncit_id_idempotent t :
  ncit_id ("NCIT:" ++ t) = ("NCIT:" ++ t)%string
  ∧ ncit_id (ncit_id t) = ncit_id t
  ∧ (if String.prefix "NCIT:" t
     then ncit_id t = t
     else ncit_id t = ("NCIT:" ++ t)%string ∧ ∀ t', t ≠ ("NCIT:" ++ t')%string).
Proof.
  assert (Hstarts : ∀ s, String.prefix "NCIT:" ("NCIT:" ++ s) = true)
    by (intros []; reflexivity).
  unfold ncit_id. split; [by rewrite Hstarts |]. split.
  - destruct (String.prefix "NCIT:" t) eqn:Hp; by rewrite ?Hp, ?Hstarts.
  - destruct (String.prefix "NCIT:" t) eqn:Hp; [done |].
    split; [done |]. intros t' ->. by rewrite Hstarts in Hp.
Qed.

(** C9. When the source path does not exist or is not a regular file,
    [main] exits with code 1 after printing the one error line; nothing is
    loaded and the directory tree is what it was, no parent directory of
    the destination was created. *)
Theorem main_source_check xml fs source_file destination_file verbose :
  exists_ fs source_file = false ∨ is_file fs source_file = false →
  let r := main xml fs source_file destination_file verbose in
  result r = SysExit 1
  ∧ exit_code (result r) = 1
  ∧ files r = fs
  ∧ (stdout r = [SourceMissing source_file]
     ∨ stdout r = [NotAFile source_file]).
Proof.
  intros H. unfold main.
  destruct (exists_ fs source_file) eqn:Hex; simpl.
  - destruct H as [[=] | ->]. simpl. repeat split; auto.
  - repeat split; auto.
Qed.

(** * The claims on sample documents *)

Lemma graft_axiom_preserves_witness :
  (C123, RDFS.comment, short_name)
  ∈ graph (graft_axiom (loaded scenario) C123 HAS_SYN short_name xref_C999).
Proof. apply graft_axiom_preserves. by_evaluation. Defined.

Lemma graft_axiom_exact_witness :
  let st := loaded scenario in
  let st' := graft_axiom st C123 HAS_SYN short_name xref_C999 in
  graph st' = (Graph.add (C123, HAS_SYN, short_name) (graph st)
               ++ axiom_triples (BNode 1) C123 HAS_SYN short_name xref_C999)
  ∧ length (graph st') = 3 + 6.
Proof.
  intros st st'.
  destruct (graft_axiom_exact st C123 HAS_SYN short_name xref_C999)
    as (Hgraph & _ & _ & Hlen).
  - by_evaluation.
  - exact I.
  - split; [exact Hgraph | exact Hlen].
Defined.

(** C2 as stated fails where the asserted triple is already in the graph:
    the graft then adds the five triples of the axiom node only. *)
Lemma graft_axiom_adds_five :
  let st := loaded with_synonym in
  let st' := graft_axiom st C123 HAS_SYN short_name xref_C999 in
  fresh st
  ∧ length (graph st) = 1
  ∧ length (graph st') = 6
  ∧ length (graph st') ≠ length (graph st) + 6.
Proof.
  intros st st'. split; [apply loaded_fresh |].
  split; [by_evaluation |]. split; [by_evaluation |].
  vm_compute. discriminate.
Qed.

(** C4 on a class with two see-also triples and four comments, with the
    triples of the document in the order given and in the opposite order:
    the generator yields the one subject twice, once for each see-also
    object, and the second visit finds two comments left, so the class is
    rewritten and counted twice. *)
Theorem two_links_counted_twice :
  Forall (λ ts,
    first_occurrences (Graph.subjects (graph (loaded ts)) RDFS.seeAlso)
    = [C123]
    ∧ visited (loaded ts) = [C123; C123]
    ∧ processed (visited (loaded ts)) (loaded ts) = [C123; C123]
    ∧ ∃ st', migrate_graph (loaded ts) = Ok (st', 2)
        ∧ Graph.objects (graph st') C123 HAS_SYN
          = [Literal "a" Plain; Literal "bb" Plain]
        ∧ Graph.objects (graph st') C123 IAO_DEF
          = [Literal "dddd" Plain; Literal "ccc" Plain]
        ∧ length (axiom_nodes (graph st')) = 4)
  [two_links; reverse two_links].
Proof.
  repeat first [apply Forall_nil_2 | apply Forall_cons_2].
  all: split; [by_evaluation |]. all: split; [by_evaluation |].
  all: split; [by_evaluation |].
  all: eexists; split; [vm_compute; reflexivity |]; repeat split; by_evaluation.
Qed.

(** The same class when the text of its first see-also object, an IRI, is
    its second see-also object: the first visit removes the second
    see-also triple, the generator does not yield the class again, and the
    class is counted once. *)
Example shadowed_link_counted_once :
  let st := loaded shadowed_link in
  visited st = [C123]
  ∧ ∃ st', migrate_graph st = Ok (st', 1)
      ∧ Graph.objects (graph st') C123 RDFS.seeAlso = [URIRef "C2"]
      ∧ length (graph st') = 15.
Proof.
  intros st. split; [by_evaluation |].
  eexists. split; [vm_compute; reflexivity |]. split; by_evaluation.
Qed.

Lemma skip_invariant_witness :
  let st := loaded with_single_comment in
  ∃ st',
    migrate_graph st = Ok (st', 1)
    ∧ filter (λ t, subject t = C7) (graph st')
      = filter (λ t, subject t = C7) (graph st)
    ∧ (C7 ∉ processed (visited st) st)
    ∧ 1 = length (processed (visited st) st).
Proof.
  intros st. eexists. split; [vm_compute; reflexivity |].
  apply (skip_invariant st C7).
  - by_evaluation.
  - by_evaluation.
  - vm_compute. lia.
  - vm_compute. reflexivity.
Defined.

Lemma name_and_definition_witness :
  ∃ st',
    migrate_body (loaded equal_lengths) C123 = Ok (st', true)
    ∧ ∃ name_lit def_lit before after before' after',
        Graph.objects (graph (loaded equal_lengths)) C123 RDFS.comment
          = before ++ name_lit :: after
        ∧ Forall (λ c, text_length name_lit < text_length c) before
        ∧ Forall (λ c, text_length name_lit ≤ text_length c) after
        ∧ Graph.objects (graph (loaded equal_lengths)) C123 RDFS.comment
          = before' ++ def_lit :: after'
        ∧ Forall (λ c, text_length c ≤ text_length def_lit) before'
        ∧ Forall (λ c, text_length c < text_length def_lit) after'
        ∧ (C123, HAS_SYN, name_lit) ∈ graph st'
        ∧ (C123, IAO_DEF, def_lit) ∈ graph st'.
Proof.
  eexists. split; [vm_compute; reflexivity |].
  apply (name_and_definition (loaded equal_lengths) C123).
  vm_compute. reflexivity.
Defined.

(** Two comments of equal length: the first one the store yields is the
    synonym, the other one the definition. *)
Example equal_lengths_first_is_name :
  ∃ st', migrate_graph (loaded equal_lengths) = Ok (st', 1)
    ∧ Graph.objects (graph st') C123 HAS_SYN = [Literal "ab" Plain]
    ∧ Graph.objects (graph st') C123 IAO_DEF = [Literal "cd" Plain]
    ∧ Graph.objects (graph st') (BNode 1) HAS_XREF = [xref_C999].
Proof.
  eexists. split; [vm_compute; reflexivity |]. repeat split; by_evaluation.
Qed.

Lemma main_source_check_witness :
  let r := main iri_writer scenario_fs ["missing.rdf"] ["out"; "hpvco.rdf"] true in
  (result r = SysExit 1
   ∧ exit_code (result r) = 1
   ∧ files r = scenario_fs
   ∧ (stdout r = [SourceMissing ["missing.rdf"]]
      ∨ stdout r = [NotAFile ["missing.rdf"]]))
  ∧ let r := main iri_writer scenario_fs ["data"] ["out"; "hpvco.rdf"] false in
    (result r = SysExit 1
     ∧ exit_code (result r) = 1
     ∧ files r = scenario_fs
     ∧ (stdout r = [SourceMissing ["data"]] ∨ stdout r = [NotAFile ["data"]])).
Proof.
  split.
  - apply (main_source_check iri_writer scenario_fs ["missing.rdf"]). left.
    vm_compute. reflexivity.
  - apply (main_source_check iri_writer scenario_fs ["data"]). right.
    vm_compute. reflexivity.
Defined.

(** With the source in place, [main] creates the missing parent of the
    destination and writes the output there. *)
Example main_creates_parent :
  let r := main iri_writer scenario_fs ["in.rdf"] ["out"; "hpvco.rdf"] false in
  scenario_fs !! ["out"] = None
  ∧ exit_code (result r) = 0
  ∧ files r !! ["out"] = Some Dir
  ∧ is_file (files r) ["out"; "hpvco.rdf"] = true.
Proof. repeat split; vm_compute; reflexivity. Qed.

(** * Further properties of the rewriting *)

Section Preservation.

Implicit Types (st : state) (cls c o : term) (t : triple).

(** An iteration takes nothing but the three triples of step 4. *)
Lemma migrate_body_keeps st cls st' counted t :
  migrate_body st cls = Ok (st', counted) →
  t ∈ graph st →
  predicate t ≠ RDFS.comment → predicate t ≠ RDFS.seeAlso →
  t ∈ graph st'.
Proof.
  intros (o & _ & [(_ & -> & _) | (_ & _ & name_lit & def_lit & _ & _ & ->)])
    %migrate_body_inv Hin Hc Hs; [done |].
  apply elem_of_rewritten. split; [by left |].
  unfold removed. rewrite !elem_of_cons, elem_of_nil.
  intros [-> | [-> | [-> | []]]]; by (apply Hc || apply Hs).
Qed.

Lemma migrate_loop_keeps subjs st n st' m t :
  migrate_loop subjs st n = Ok (st', m) →
  t ∈ graph st →
  predicate t ≠ RDFS.comment → predicate t ≠ RDFS.seeAlso →
  t ∈ graph st'.
Proof.
  revert st n. induction subjs as [| cls subjs IH]; intros st n H Hin Hc Hs;
    simpl in H.
  - by simplify_eq.
  - destruct (migrate_body st cls) as [[st1 counted] | e] eqn:Hbody;
      simpl in H; [| done].
    eapply IH; [exact H | | done | done].
    by eapply migrate_body_keeps.
Qed.

(** The objects of [(cls, p, _)] after the removal of one such triple. *)
Lemma objects_remove (g : list triple) cls p x :
  Graph.objects (Graph.remove (cls, p, x) g) cls p
  = filter (λ c, c ≠ x) (Graph.objects g cls p).
Proof.
  unfold Graph.objects, Graph.remove.
  induction g as [| [[s q] c] g IH]; [done |].
  rewrite (filter_cons (λ t, t ≠ (cls, p, x))).
  rewrite (filter_cons (λ t, subject t = cls ∧ predicate t = p) (s, q, c)).
  destruct (decide (subject (s, q, c) = cls ∧ predicate (s, q, c) = p))
    as [[Hs Hq] | Hno].
  - cbv [subject predicate fst snd] in Hs, Hq. subst s q.
    rewrite fmap_cons, filter_cons. change (object (cls, p, c)) with c.
    destruct (decide (c = x)) as [-> | Hne].
    + rewrite decide_False by (intros ?; done).
      rewrite decide_False by (intros ?; done). exact IH.
    + rewrite decide_True by congruence.
      rewrite filter_cons_True by done.
      rewrite decide_True by done. rewrite fmap_cons.
      change (object (cls, p, c)) with c. f_equal. exact IH.
  - case_decide as Hr.
    + rewrite filter_cons_False by done. exact IH.
    + exact IH.
Qed.

(** The comments a processed class keeps: all but the two that were
    chosen. *)
Lemma rewritten_comments st cls o name_lit def_lit :
  Graph.objects (graph (rewritten st cls o name_lit def_lit)) cls RDFS.comment
  = filter (λ c, c ≠ name_lit ∧ c ≠ def_lit)
      (Graph.objects (graph st) cls RDFS.comment).
Proof.
  unfold rewritten, g_remove; cbn [graph next_bnode].
  assert (Hsee : ∀ g x, Graph.objects
            (Graph.remove (cls, RDFS.seeAlso, x) g) cls RDFS.comment
            = Graph.objects g cls RDFS.comment).
  { intros g x. unfold Graph.objects. f_equal. apply filter_remove.
    intros [_ Hp]. by vm_compute in Hp. }
  rewrite Hsee, !objects_remove.
  rewrite list_filter_filter.
  assert (Hgraft : ∀ st' prop tgt xref,
            Graph.objects (graph (graft_axiom st' cls prop tgt xref)) cls RDFS.comment
            = Graph.objects (graph st') cls RDFS.comment ∨ prop = RDFS.comment).
  { intros st' prop tgt xref.
    destruct (decide (prop = RDFS.comment)) as [| Hne]; [by right | left].
    unfold Graph.objects. f_equal. apply filter_graft_axiom.
    - intros [_ Hp]. done.
    - intros t Ht [_ Hp]. unfold axiom_triples in Ht.
      rewrite !elem_of_cons, elem_of_nil in Ht.
      repeat destruct Ht as [Ht | Ht]; try done; subst t; by vm_compute in Hp. }
  destruct (Hgraft (graft_axiom st cls IAO_DEF def_lit
              (Literal (ncit_id (str o)) Plain)) HAS_SYN name_lit
              (Literal (ncit_id (str o)) Plain)) as [-> | H];
    [| by vm_compute in H].
  destruct (Hgraft st IAO_DEF def_lit (Literal (ncit_id (str o)) Plain))
    as [-> | H]; [| by vm_compute in H].
  apply list_filter_iff. tauto.
Qed.

End Preservation.

(** ** Blank nodes stay fresh *)

Section Fresh.

Implicit Types (st : state) (cls c o x : term) (t : triple).

Lemma term_below_mono n m x : n ≤ m → term_below n x → term_below m x.
Proof. intros Hle. destruct x; simpl; [done | lia | done]. Qed.

Lemma triple_below_mono n m t : n ≤ m → triple_below n t → triple_below m t.
Proof.
  intros Hle (? & ? & ?). repeat split; by eapply term_below_mono.
Qed.

Lemma objects_below st c p x :
  fresh st → x ∈ Graph.objects (graph st) c p → term_below (next_bnode st) x.
Proof.
  intros Hf (t & -> & [_ Ht]%list_elem_of_filter)%list_elem_of_fmap.
  unfold fresh in Hf. rewrite Forall_forall in Hf.
  by destruct (Hf t Ht) as (_ & _ & ?).
Qed.

Lemma fresh_graft_axiom st subj prop tgt xref :
  fresh st →
  term_below (next_bnode st) subj → term_below (next_bnode st) prop →
  term_below (next_bnode st) tgt → term_below (next_bnode st) xref →
  fresh (graft_axiom st subj prop tgt xref).
Proof.
  intros Hf Hs Hp Ht Hx. unfold fresh. rewrite graft_axiom_next.
  apply Forall_forall. intros t [Hin | [-> | Hin]]%elem_of_graft_axiom.
  - unfold fresh in Hf. rewrite Forall_forall in Hf.
    eapply triple_below_mono; [| by apply Hf]. lia.
  - repeat split; simpl; (eapply term_below_mono; [| eassumption]; lia).
  - unfold axiom_triples in Hin. rewrite !elem_of_cons, elem_of_nil in Hin.
    repeat destruct Hin as [Hin | Hin]; try done; subst t;
      repeat split; simpl; try lia; try done;
      (eapply term_below_mono; [| eassumption]; lia).
Qed.

Lemma fresh_g_remove st t : fresh st → fresh (g_remove t st).
Proof.
  unfold fresh, g_remove; simpl. rewrite !Forall_forall.
  intros Hf x [Hx _]%elem_of_remove. by apply Hf.
Qed.

Lemma fresh_rewritten st cls o name_lit def_lit :
  fresh st →
  term_below (next_bnode st) cls →
  term_below (next_bnode st) name_lit → term_below (next_bnode st) def_lit →
  fresh (rewritten st cls o name_lit def_lit).
Proof.
  intros Hf Hc Hn Hd. unfold rewritten.
  repeat apply fresh_g_remove.
  apply fresh_graft_axiom; rewrite ?graft_axiom_next;
    try (eapply term_below_mono; [| eassumption]; lia); try done.
  apply fresh_graft_axiom; done.
Qed.

(** An iteration keeps the graph fresh and never lowers the supply. *)
Lemma migrate_body_fresh st cls st' counted :
  migrate_body st cls = Ok (st', counted) →
  fresh st → term_below (next_bnode st) cls →
  fresh st' ∧ next_bnode st' = next_bnode st + (if counted then 2 else 0).
Proof.
  intros (o & _ & [(_ & -> & ->) | (_ & -> & name_lit & def_lit & Hn & Hd & ->)])
    %migrate_body_inv Hf Hc.
  { split; [done | lia]. }
  split; [| rewrite rewritten_next; lia].
  apply fresh_rewritten; try done.
  - apply (objects_below st cls RDFS.comment); [done |].
    rewrite <- (sorted_perm text_length). by apply head_Some_elem_of.
  - apply (objects_below st cls RDFS.comment); [done |].
    rewrite <- (sorted_perm text_length). by apply last_Some_elem_of.
Qed.

(** The graph after a graft on a fresh state, as a list. *)
Lemma graft_axiom_graph_fresh st subj prop tgt xref :
  fresh st → term_below (next_bnode st) subj →
  graph (graft_axiom st subj prop tgt xref) =
  Graph.add (subj, prop, tgt) (graph st)
  ++ axiom_triples (BNode (next_bnode st)) subj prop tgt xref.
Proof.
  intros Hf Hs. rewrite graft_axiom_graph.
  apply foldl_add_new; [apply NoDup_axiom_triples |].
  intros t Ht%axiom_triples_subject [-> | Hin]%elem_of_add.
  - unfold subject in Ht; simpl in Ht. subst subj. simpl in Hs. lia.
  - by apply (next_bnode_new st t).
Qed.

End Fresh.

(** ** Axiom nodes and comments, counted *)

Section Counting.

Implicit Types (st : state) (cls c o x : term) (t : triple).

Lemma axiom_nodes_graft_axiom st subj prop tgt xref :
  fresh st → term_below (next_bnode st) subj → prop ≠ RDF.type →
  axiom_nodes (graph (graft_axiom st subj prop tgt xref))
  = axiom_nodes (graph st) ++ [BNode (next_bnode st)].
Proof.
  intros Hf Hs Hp. rewrite graft_axiom_graph_fresh by done.
  unfold axiom_nodes. rewrite filter_app, fmap_app.
  rewrite filter_add by (intros [Hq _]; done).
  f_equal.
Qed.

Lemma axiom_nodes_remove t (g : list triple) :
  predicate t ≠ RDF.type → axiom_nodes (Graph.remove t g) = axiom_nodes g.
Proof.
  intros Hp. unfold axiom_nodes. f_equal. apply filter_remove. by intros [? _].
Qed.

Lemma migrate_body_axiom_nodes st cls st' counted :
  migrate_body st cls = Ok (st', counted) →
  fresh st → term_below (next_bnode st) cls →
  axiom_nodes (graph st')
  = axiom_nodes (graph st)
    ++ (BNode <$> seq (next_bnode st) (if counted then 2 else 0)).
Proof.
  intros (o & _ & [(_ & -> & ->) | (_ & -> & name_lit & def_lit & Hn & Hd & ->)])
    %migrate_body_inv Hf Hc.
  { simpl. by rewrite app_nil_r. }
  assert (Hdef : term_below (next_bnode st) def_lit).
  { apply (objects_below st cls RDFS.comment); [done |].
    rewrite <- (sorted_perm text_length). by apply last_Some_elem_of. }
  unfold rewritten, g_remove; cbn [graph next_bnode].
  rewrite !axiom_nodes_remove by (intros Hq; by vm_compute in Hq).
  rewrite axiom_nodes_graft_axiom.
  - rewrite axiom_nodes_graft_axiom by (done || intros Hq; by vm_compute in Hq).
    rewrite graft_axiom_next, <- app_assoc. reflexivity.
  - by apply fresh_graft_axiom.
  - rewrite graft_axiom_next. eapply term_below_mono; [| exact Hc]. lia.
  - intros Hq. by vm_compute in Hq.
Qed.

Lemma migrate_loop_axiom_nodes subjs st k st' m :
  migrate_loop subjs st k = Ok (st', m) →
  fresh st → Forall (term_below (next_bnode st)) subjs →
  k ≤ m ∧ fresh st'
  ∧ axiom_nodes (graph st')
    = axiom_nodes (graph st) ++ (BNode <$> seq (next_bnode st) (2 * (m - k))).
Proof.
  revert st k. induction subjs as [| cls subjs IH]; intros st k H Hf Hsub;
    simpl in H.
  - simplify_eq. replace (m - m) with 0 by lia. simpl.
    by rewrite app_nil_r.
  - apply Forall_cons in Hsub as [Hc Hsub].
    destruct (migrate_body st cls) as [[st1 counted] | e] eqn:Hbody;
      simpl in H; [| done].
    destruct (migrate_body_fresh _ _ _ _ Hbody Hf Hc) as [Hf1 Hnext].
    pose proof (migrate_body_axiom_nodes _ _ _ _ Hbody Hf Hc) as Hnodes.
    destruct (IH _ _ H Hf1) as (Hle & Hf' & Hrest).
    { eapply Forall_impl; [exact Hsub |]. intros x.
      apply term_below_mono. lia. }
    rewrite Hrest, Hnodes, Hnext, <- app_assoc, <- fmap_app.
    destruct counted.
    + split; [lia |]. split; [done |]. do 2 f_equal.
      replace (2 * (m - k)) with (2 + 2 * (m - (k + 1))) by lia.
      by rewrite seq_app.
    + split; [lia |]. split; [done |]. simpl. do 3 f_equal. lia.
Qed.

Lemma remove_absent t (g : list triple) : t ∉ g → Graph.remove t g = g.
Proof.
  intros Hin. unfold Graph.remove. induction g as [| y g IH]; [done |].
  rewrite filter_cons_True by (intros ->; apply Hin; left).
  f_equal. apply IH. intros ?. apply Hin. by right.
Qed.

(** Removing a selected triple that is there shortens the selection by
    exactly one. *)
Lemma length_filter_remove_in (P : triple → Prop) `{!∀ y, Decision (P y)}
    t (g : list triple) :
  NoDup g → t ∈ g → P t →
  length (filter P g) = S (length (filter P (Graph.remove t g))).
Proof.
  intros Hnd Hin HP. induction Hnd as [| y g Hy Hnd IH]; [by apply elem_of_nil in Hin |].
  destruct (decide (y = t)) as [-> | Hne].
  - unfold Graph.remove.
    rewrite (filter_cons_False (λ z : triple, z ≠ t)) by (intros ?; done).
    fold (Graph.remove t g). rewrite remove_absent by done.
    by rewrite filter_cons_True.
  - apply elem_of_cons in Hin as [-> | Hin]; [done |].
    unfold Graph.remove.
    rewrite (filter_cons_True (λ z : triple, z ≠ t)) by done.
    fold (Graph.remove t g). rewrite !(filter_cons P).
    case_decide; simpl; rewrite IH; done.
Qed.

Lemma elem_of_objects (g : list triple) c p x :
  x ∈ Graph.objects g c p ↔ (c, p, x) ∈ g.
Proof.
  unfold Graph.objects. rewrite list_elem_of_fmap. split.
  - intros ([[s q] y] & -> & [[Hs Hp] Hin]%list_elem_of_filter).
    cbv [subject predicate fst snd] in Hs, Hp. by subst.
  - intros Hin. exists (c, p, x). split; [done |].
    apply list_elem_of_filter. by split.
Qed.

Lemma NoDup_objects (g : list triple) c p :
  NoDup g → NoDup (Graph.objects g c p).
Proof.
  intros Hnd. unfold Graph.objects. apply NoDup_fmap_2_strong.
  - intros [[s q] y] [[s' q'] y']
      [[Hs Hp] _]%list_elem_of_filter [[Hs' Hp'] _]%list_elem_of_filter Heq.
    cbv [subject predicate object fst snd] in *. by subst.
  - by apply NoDup_filter.
Qed.

Lemma head_last_ne {A} (l : list A) (a b : A) :
  NoDup l → 2 ≤ length l → head l = Some a → last l = Some b → a ≠ b.
Proof.
  destruct l as [| a' [| b' l]]; intros Hnd Hlen Hh Hl; simpl in Hlen; try lia.
  apply NoDup_cons in Hnd as [Ha _]. simpl in Hh. injection Hh as ->.
  rewrite last_cons_cons in Hl. intros ->.
  apply Ha. by apply last_Some_elem_of.
Qed.

(** A rewrite takes exactly two comment triples. *)
Lemma migrate_body_comment_triples st cls st' counted :
  migrate_body st cls = Ok (st', counted) → NoDup (graph st) →
  length (comment_triples (graph st')) + (if counted then 2 else 0)
  = length (comment_triples (graph st)).
Proof.
  intros (o & _ & [(_ & -> & ->) | (Hge & -> & name_lit & def_lit & Hn & Hd & ->)])
    %migrate_body_inv Hnd.
  { lia. }
  set (coms := Graph.objects (graph st) cls RDFS.comment) in *.
  assert (Hne : name_lit ≠ def_lit).
  { apply (head_last_ne (sorted text_length coms)); [| | done | done].
    - rewrite (sorted_perm text_length). by apply NoDup_objects.
    - by rewrite length_sorted. }
  assert (Hname : (cls, RDFS.comment, name_lit) ∈ graph st).
  { apply elem_of_objects. fold coms.
    rewrite <- (sorted_perm text_length). by apply head_Some_elem_of. }
  assert (Hdef : (cls, RDFS.comment, def_lit) ∈ graph st).
  { apply elem_of_objects. fold coms.
    rewrite <- (sorted_perm text_length). by apply last_Some_elem_of. }
  unfold comment_triples, rewritten, g_remove; cbn [graph next_bnode].
  set (xref := Literal (ncit_id (str o)) Plain).
  set (G := graph (graft_axiom (graft_axiom st cls IAO_DEF def_lit xref)
                     cls HAS_SYN name_lit xref)).
  assert (HG : filter (λ t, predicate t = RDFS.comment) G
               = filter (λ t, predicate t = RDFS.comment) (graph st)).
  { unfold G. rewrite !filter_graft_axiom; first done.
    all: try (intros Hq; by vm_compute in Hq).
    all: intros t Ht Hq; unfold axiom_triples in Ht;
      rewrite !elem_of_cons, elem_of_nil in Ht;
      repeat destruct Ht as [Ht | Ht]; try done; subst t; by vm_compute in Hq. }
  assert (HndG : NoDup G) by (by repeat apply NoDup_graft_axiom).
  assert (HinG : ∀ t, t ∈ graph st → t ∈ G).
  { intros t Ht. unfold G. rewrite !elem_of_graft_axiom. auto. }
  rewrite filter_remove by (intros Hq; by vm_compute in Hq).
  rewrite <- HG.
  rewrite (length_filter_remove_in _ (cls, RDFS.comment, name_lit) G)
    by auto.
  rewrite (length_filter_remove_in _ (cls, RDFS.comment, def_lit)
             (Graph.remove (cls, RDFS.comment, name_lit) G)).
  - lia.
  - by apply NoDup_remove.
  - apply elem_of_remove. split; [auto | congruence].
  - done.
Qed.

Lemma migrate_loop_comment_triples subjs st k st' m :
  migrate_loop subjs st k = Ok (st', m) → NoDup (graph st) →
  length (comment_triples (graph st')) + 2 * (m - k)
  = length (comment_triples (graph st)) ∧ k ≤ m.
Proof.
  revert st k. induction subjs as [| cls subjs IH]; intros st k H Hnd;
    simpl in H.
  - simplify_eq. lia.
  - destruct (migrate_body st cls) as [[st1 counted] | e] eqn:Hbody;
      simpl in H; [| done].
    pose proof (migrate_body_comment_triples _ _ _ _ Hbody Hnd) as Hstep.
    destruct (migrate_body_seeAlso _ _ _ _ cls Hbody Hnd) as [Hnd1 _].
    destruct (IH _ _ H Hnd1) as [Hrest Hle].
    destruct counted; lia.
Qed.

End Counting.

(** ** Which classes a run rewrites *)

Section Coverage.

Implicit Types (st : state) (cls c : term) (subjs : list term).

(** A subject that is not visited keeps its triples. *)
Lemma migrate_loop_untouched subjs st k st' m c :
  migrate_loop subjs st k = Ok (st', m) →
  term_below (next_bnode st) c → c ∉ subjs →
  filter (λ t, subject t = c) (graph st') = filter (λ t, subject t = c) (graph st).
Proof.
  revert st k. induction subjs as [| cls subjs IH]; intros st k H Hc Hnot;
    simpl in H.
  - by simplify_eq.
  - destruct (migrate_body st cls) as [[st1 counted] | e] eqn:Hbody;
      simpl in H; [| done].
    apply not_elem_of_cons in Hnot as [Hne Hnot].
    destruct (migrate_body_frame _ _ _ _ c Hbody Hc) as (Hsame & Hc1 & _);
      [by left |].
    rewrite (IH _ _ H Hc1 Hnot). exact Hsame.
Qed.

(** A visited subject with two comments or more is rewritten. *)
Lemma migrate_loop_processes subjs st k st' m cls :
  migrate_loop subjs st k = Ok (st', m) →
  term_below (next_bnode st) cls → cls ∈ subjs →
  2 ≤ length (Graph.objects (graph st) cls RDFS.comment) →
  cls ∈ processed subjs st.
Proof.
  revert st k. induction subjs as [| c subjs IH]; intros st k H Hc Hin Hge;
    simpl in H |- *.
  - by apply elem_of_nil in Hin.
  - destruct (migrate_body st c) as [[st1 counted] | e] eqn:Hbody;
      simpl in H; [| done].
    destruct (decide (c = cls)) as [-> | Hne].
    + apply migrate_body_inv in Hbody
        as (o & _ & [(Hlt & _ & _) | (_ & -> & _)]); [lia |].
      apply elem_of_app. left. apply list_elem_of_here.
    + apply elem_of_cons in Hin as [-> | Hin]; [done |].
      destruct (migrate_body_frame _ _ _ _ cls Hbody Hc) as (Hsame & Hc1 & _);
        [by left |].
      apply elem_of_app. right. apply (IH _ _ H Hc1 Hin).
      by rewrite (objects_of_subject _ (graph st)).
Qed.

Lemma subjects_objects (g : list triple) c p :
  c ∈ Graph.subjects g p ↔ Graph.objects g c p ≠ [].
Proof.
  pose proof (subjects_visits g c p) as Hlen. split.
  - intros Hin Hnil. rewrite Hnil in Hlen. simpl in Hlen.
    apply length_zero_iff_nil in Hlen.
    eapply (filter_nil_not_elem_of _ _ c); [exact Hlen | done | done].
  - intros Hne. destruct (filter (λ x, x = c) (Graph.subjects g p))
      as [| y l] eqn:Hf.
    + simpl in Hlen. symmetry in Hlen. by apply length_zero_iff_nil in Hlen.
    + assert (Hy : y ∈ filter (λ x, x = c) (Graph.subjects g p))
        by (rewrite Hf; left).
      by apply list_elem_of_filter in Hy as [-> ?].
Qed.

Lemma migrate_loop_next subjs st k st' m :
  migrate_loop subjs st k = Ok (st', m) → next_bnode st ≤ next_bnode st'.
Proof.
  revert st k. induction subjs as [| cls subjs IH]; intros st k H; simpl in H.
  - by simplify_eq.
  - destruct (migrate_body st cls) as [[st1 counted] | e] eqn:Hbody;
      simpl in H; [| done].
    apply IH in H.
    apply migrate_body_inv in Hbody
      as (o & _ & [(_ & -> & _) | (_ & _ & name_lit & def_lit & _ & _ & ->)]);
      [done |].
    rewrite rewritten_next in H. lia.
Qed.

(** A subject that is not in the log keeps its triples. *)
Lemma migrate_loop_unprocessed subjs st k st' m c :
  migrate_loop subjs st k = Ok (st', m) →
  term_below (next_bnode st) c → c ∉ processed subjs st →
  filter (λ t, subject t = c) (graph st') = filter (λ t, subject t = c) (graph st).
Proof.
  revert st k. induction subjs as [| cls subjs IH]; intros st k H Hc Hnot;
    simpl in H, Hnot.
  - by simplify_eq.
  - destruct (migrate_body st cls) as [[st1 counted] | e] eqn:Hbody;
      simpl in H; [| done].
    apply not_elem_of_app in Hnot as [Hhead Hnot].
    destruct (decide (c = cls)) as [-> | Hne].
    + destruct counted; [exfalso; apply Hhead; left |].
      apply migrate_body_inv in Hbody as (o & _ & [(_ & -> & _) | (_ & [=] & _)]).
      by eapply IH.
    + destruct (migrate_body_frame _ _ _ _ c Hbody Hc) as (Hsame & Hc1 & _);
        [by left |].
      rewrite (IH _ _ H Hc1 Hnot). exact Hsame.
Qed.

(** A subject in the log was rewritten at some point of the loop. *)
Lemma processed_split subjs st k cls :
  cls ∈ processed subjs st →
  ∃ subjs1 subjs2 st1 k1 st2,
    subjs = subjs1 ++ cls :: subjs2
    ∧ migrate_loop subjs1 st k = Ok (st1, k1)
    ∧ migrate_body st1 cls = Ok (st2, true).
Proof.
  revert st k. induction subjs as [| c subjs IH]; intros st k Hin; simpl in Hin.
  - by apply elem_of_nil in Hin.
  - destruct (migrate_body st c) as [[st1 counted] | e] eqn:Hbody;
      [| by apply elem_of_nil in Hin].
    apply elem_of_app in Hin as [Hin | Hin].
    + destruct counted; [| by apply elem_of_nil in Hin].
      apply list_elem_of_singleton in Hin as ->.
      by exists [], subjs, st, k, st1.
    + destruct (IH st1 (if counted then k + 1 else k) Hin)
        as (subjs1 & subjs2 & st1' & k1 & st2 & -> & Hloop & Hb).
      exists (c :: subjs1), subjs2, st1', k1, st2.
      split; [done |]. split; [| done]. simpl. by rewrite Hbody.
Qed.

(** A subject in the log has lost a comment triple by the end. *)
Lemma processed_changed subjs st k st' m c :
  migrate_loop subjs st k = Ok (st', m) → c ∈ processed subjs st →
  filter (λ t, subject t = c) (graph st') ≠ filter (λ t, subject t = c) (graph st).
Proof.
  intros Hrun Hlog.
  destruct (processed_split _ _ k _ Hlog)
    as (subjs1 & subjs2 & st1 & k1 & st2 & -> & Hpre & Hbody).
  rewrite (migrate_loop_app _ _ _ _ _ _ Hpre) in Hrun. simpl in Hrun.
  rewrite Hbody in Hrun. simpl in Hrun.
  destruct (migrate_body_cleanup _ _ _ Hbody)
    as (o & name_lit & def_lit & _ & Hn & _ & Hgone).
  rewrite Forall_forall in Hgone.
  assert (H1 : (c, RDFS.comment, name_lit) ∈ graph st1).
  { apply elem_of_objects. rewrite <- (sorted_perm text_length).
    by apply head_Some_elem_of. }
  assert (H0 : (c, RDFS.comment, name_lit) ∈ graph st).
  { eapply migrate_loop_no_new; [exact Hpre | by left | done]. }
  intros Heq.
  assert (Hin : (c, RDFS.comment, name_lit)
                ∈ filter (λ t, subject t = c) (graph st')).
  { rewrite Heq. by apply list_elem_of_filter. }
  apply list_elem_of_filter in Hin as [_ Hin].
  apply (Hgone (c, RDFS.comment, name_lit)); [left |].
  eapply migrate_loop_no_new; [exact Hrun | by left | done].
Qed.

Lemma processed_sublist subjs st : processed subjs st `sublist_of` subjs.
Proof.
  revert st. induction subjs as [| cls subjs IH]; intros st; simpl; [done |].
  destruct (migrate_body st cls) as [[st1 counted] | e];
    [| apply sublist_nil_l].
  destruct counted; simpl; by constructor.
Qed.

End Coverage.

(** ** The subjects the generator yields *)

Section Generator.

Implicit Types (st : state) (cls c : term) (subjs objs : list term).

Lemma filter_sublist_mono {A} (P : A → Prop) `{!∀ x, Decision (P x)}
    (l1 l2 : list A) :
  l1 `sublist_of` l2 → filter P l1 `sublist_of` filter P l2.
Proof.
  induction 1 as [| x l1 l2 _ IH | x l1 l2 _ IH]; [done | |];
    rewrite ?filter_cons; case_decide; by (constructor || idtac).
Qed.

(** An iteration leaves no more see-also triples than it found. *)
Lemma migrate_body_links st cls st' counted :
  migrate_body st cls = Ok (st', counted) →
  filter (λ t, predicate t = RDFS.seeAlso) (graph st')
  `sublist_of` filter (λ t, predicate t = RDFS.seeAlso) (graph st).
Proof.
  intros (o & _ & [(_ & -> & _) | (_ & _ & name_lit & def_lit & _ & _ & ->)])
    %migrate_body_inv; [done |].
  unfold rewritten, g_remove; cbn [graph next_bnode].
  etransitivity.
  { unfold Graph.remove at 1. apply filter_sublist_mono, sublist_filter. }
  rewrite !filter_remove by (intros Hq; by vm_compute in Hq).
  rewrite !filter_graft_axiom; first done.
  all: try (intros Hq; by vm_compute in Hq).
  all: intros t Ht Hq; unfold axiom_triples in Ht;
    rewrite !elem_of_cons, elem_of_nil in Ht;
    repeat destruct Ht as [Ht | Ht]; try done; subst t; by vm_compute in Hq.
Qed.

Lemma migrate_loop_links subjs st k st' m :
  migrate_loop subjs st k = Ok (st', m) →
  filter (λ t, predicate t = RDFS.seeAlso) (graph st')
  `sublist_of` filter (λ t, predicate t = RDFS.seeAlso) (graph st).
Proof.
  revert st k. induction subjs as [| cls subjs IH]; intros st k H; simpl in H.
  - by simplify_eq.
  - destruct (migrate_body st cls) as [[st1 counted] | e] eqn:Hbody;
      simpl in H; [| done].
    etransitivity; [by eapply IH | by eapply migrate_body_links].
Qed.

(** The generator yields part of what it would yield on the unchanged
    graph, in that order. *)
Lemma visited_groups_sublist objs st (g0 : list triple) :
  filter (λ t, predicate t = RDFS.seeAlso) (graph st)
  `sublist_of` filter (λ t, predicate t = RDFS.seeAlso) g0 →
  visited_groups objs st `sublist_of` objs ≫= Graph.subjects_of g0 RDFS.seeAlso.
Proof.
  revert st. induction objs as [| o objs IH]; intros st Hsub; [done |].
  rewrite bind_cons. cbn [visited_groups]. apply sublist_app.
  - rewrite !subjects_of_filter. by apply fmap_sublist, filter_sublist_mono.
  - destruct (migrate_loop (Graph.subjects_of (graph st) RDFS.seeAlso o) st 0)
      as [[st1 m] | e] eqn:Hgroup; [| apply sublist_nil_l].
    apply IH. etransitivity; [by eapply migrate_loop_links | done].
Qed.

Lemma visited_sublist st :
  visited st `sublist_of` Graph.subjects (graph st) RDFS.seeAlso.
Proof. by apply visited_groups_sublist. Qed.

Lemma visited_below st :
  fresh st → Forall (term_below (next_bnode st)) (visited st).
Proof.
  intros Hf. apply Forall_forall. intros c Hc.
  eapply subjects_below; [done |].
  eapply elem_of_sublist; [exact Hc | apply visited_sublist].
Qed.

(** The generator yields every subject that has a see-also triple for one
    of its objects when it reaches the first such object. *)
Lemma visited_groups_covers objs st k r c o :
  migrate_groups objs st k = Ok r →
  term_below (next_bnode st) c →
  o ∈ objs → (c, RDFS.seeAlso, o) ∈ graph st →
  c ∈ visited_groups objs st.
Proof.
  revert st k. induction objs as [| o' objs IH]; intros st k H Hc Ho Hin;
    simpl in H |- *.
  - by apply elem_of_nil in Ho.
  - apply elem_of_app.
    destruct (decide (c ∈ Graph.subjects_of (graph st) RDFS.seeAlso o'))
      as [Hhere | Hnot]; [by left | right].
    apply elem_of_cons in Ho as [-> | Ho];
      [by apply elem_of_subjects_of in Hin |].
    rewrite migrate_loop_from in H.
    destruct (migrate_loop (Graph.subjects_of (graph st) RDFS.seeAlso o') st 0)
      as [[st1 m] | e] eqn:Hgroup; simpl in H; [| done].
    eapply IH; [exact H | | done |].
    + eapply term_below_mono; [| exact Hc]. by eapply migrate_loop_next.
    + pose proof (migrate_loop_untouched _ _ _ _ _ c Hgroup Hc Hnot) as Hsame.
      assert (Hf : (c, RDFS.seeAlso, o)
                   ∈ filter (λ t, subject t = c) (graph st1)).
      { rewrite Hsame. by apply list_elem_of_filter. }
      by apply list_elem_of_filter in Hf as [_ ?].
Qed.

Lemma visited_covers st r c :
  migrate_graph st = Ok r → fresh st →
  c ∈ Graph.subjects (graph st) RDFS.seeAlso → c ∈ visited st.
Proof.
  intros H Hf Hin.
  pose proof (subjects_below _ _ _ Hf Hin) as Hc.
  apply elem_of_subjects in Hin as [o Hin].
  eapply visited_groups_covers; [exact H | done | | exact Hin].
  unfold Graph.keys. apply elem_of_first_occurrences.
  apply (list_elem_of_fmap_2' object _ (c, RDFS.seeAlso, o)); [| done].
  by apply list_elem_of_filter.
Qed.

(** When no subject is yielded twice, the count is the number of subjects
    whose triples changed. *)
Lemma count_changed st st' n :
  fresh st →
  NoDup (Graph.subjects (graph st) RDFS.seeAlso) →
  migrate_graph st = Ok (st', n) →
  n = length (changed_subjects st st').
Proof.
  intros Hf Hnd H. rewrite migrate_graph_loop in H.
  rewrite (migrate_loop_count _ _ _ _ _ H). simpl.
  apply Permutation_length, NoDup_Permutation.
  - eapply sublist_NoDup; [| apply processed_sublist].
    eapply sublist_NoDup; [exact Hnd | apply visited_sublist].
  - apply NoDup_filter, NoDup_first_occurrences.
  - intros c. unfold changed_subjects.
    rewrite list_elem_of_filter, elem_of_first_occurrences. split.
    + intros Hlog. split; [by eapply processed_changed |].
      eapply elem_of_sublist; [| apply visited_sublist].
      eapply elem_of_sublist; [exact Hlog | apply processed_sublist].
    + intros [Hch Hin].
      destruct (decide (c ∈ processed (visited st) st)) as [| Hnot]; [done |].
      exfalso. apply Hch.
      eapply migrate_loop_unprocessed; [exact H | | exact Hnot].
      by eapply subjects_below.
Qed.

End Generator.

(** X3. A run removes nothing but comment and see-also triples: every
    triple of the input graph with another predicate is in the output
    graph. *)
Theorem migrate_graph_keeps st st' processed_count t :
  migrate_graph st = Ok (st', processed_count) →
  t ∈ graph st →
  predicate t ≠ RDFS.comment → predicate t ≠ RDFS.seeAlso →
  t ∈ graph st'.
Proof. rewrite migrate_graph_loop. apply migrate_loop_keeps. Qed.

(** X4. A run adds no comment and no see-also triple: each one in the
    output graph was in the input graph. *)
Theorem migrate_graph_no_new_annotation st st' processed_count t :
  migrate_graph st = Ok (st', processed_count) →
  predicate t = RDFS.comment ∨ predicate t = RDFS.seeAlso →
  t ∈ graph st' → t ∈ graph st.
Proof. rewrite migrate_graph_loop. apply migrate_loop_no_new. Qed.

(** X5. Each rewrite consumes exactly two comment triples: the output has
    as many comment triples as the input less twice the count. *)
Theorem migrate_graph_comment_triples st st' processed_count :
  NoDup (graph st) →
  migrate_graph st = Ok (st', processed_count) →
  length (comment_triples (graph st')) + 2 * processed_count
  = length (comment_triples (graph st)).
Proof.
  intros Hnd H. rewrite migrate_graph_loop in H.
  destruct (migrate_loop_comment_triples _ _ _ _ _ H Hnd) as [Heq _].
  by rewrite Nat.sub_0_r in Heq.
Qed.

(** X6. Each rewrite creates exactly two axiom nodes: the nodes typed
    [owl:Axiom] in the output are those of the input followed by twice the
    count new blank nodes, numbered from the first unused identifier. *)
Theorem migrate_graph_axiom_nodes st st' processed_count :
  fresh st →
  migrate_graph st = Ok (st', processed_count) →
  axiom_nodes (graph st')
  = axiom_nodes (graph st)
    ++ (BNode <$> seq (next_bnode st) (2 * processed_count)).
Proof.
  intros Hf H. rewrite migrate_graph_loop in H.
  destruct (migrate_loop_axiom_nodes _ _ _ _ _ H Hf) as (_ & _ & Heq).
  - by apply visited_below.
  - by rewrite Nat.sub_0_r in Heq.
Qed.

(** X7. A class with a see-also triple and at least two comments is
    rewritten by the run: the generator yields it while its first
    see-also triple and its comments are still there. *)
Theorem migrate_graph_processes st st' processed_count cls :
  fresh st →
  cls ∈ Graph.subjects (graph st) RDFS.seeAlso →
  2 ≤ length (Graph.objects (graph st) cls RDFS.comment) →
  migrate_graph st = Ok (st', processed_count) →
  cls ∈ visited st
  ∧ cls ∈ processed (visited st) st
  ∧ 1 ≤ processed_count
  ∧ filter (λ t, subject t = cls) (graph st')
    ≠ filter (λ t, subject t = cls) (graph st).
Proof.
  intros Hf Hin Hge H.
  pose proof (subjects_below _ _ _ Hf Hin) as Hc.
  pose proof (visited_covers _ _ _ H Hf Hin) as Hvis.
  rewrite migrate_graph_loop in H.
  pose proof (migrate_loop_processes _ _ _ _ _ cls H Hc Hvis Hge) as Hlog.
  split; [done |]. split; [done |]. split.
  - rewrite (migrate_loop_count _ _ _ _ _ H). simpl.
    destruct (processed _ st); [by apply elem_of_nil in Hlog | simpl; lia].
  - by eapply processed_changed.
Qed.

(** X8. A subject without a see-also triple keeps all its triples, in
    their order, provided it is not one of the blank nodes the run
    creates. *)
Theorem migrate_graph_untouched st st' processed_count c :
  term_below (next_bnode st) c →
  Graph.objects (graph st) c RDFS.seeAlso = [] →
  migrate_graph st = Ok (st', processed_count) →
  filter (λ t, subject t = c) (graph st') = filter (λ t, subject t = c) (graph st).
Proof.
  intros Hc Hnone H. rewrite migrate_graph_loop in H.
  eapply migrate_loop_untouched; [exact H | done |].
  intros Hin. eapply elem_of_sublist in Hin; [| apply visited_sublist].
  by apply subjects_objects in Hin.
Qed.

(** X9. When a class is processed, its comments other than the two that
    were chosen are left as comments, in their order. *)
Theorem migrate_body_other_comments st cls st' :
  migrate_body st cls = Ok (st', true) →
  let coms := Graph.objects (graph st) cls RDFS.comment in
  ∃ name_lit def_lit,
    head (sorted text_length coms) = Some name_lit
    ∧ last (sorted text_length coms) = Some def_lit
    ∧ Graph.objects (graph st') cls RDFS.comment
      = filter (λ c, c ≠ name_lit ∧ c ≠ def_lit) coms.
Proof.
  intros (o & _ & [(_ & _ & [=]) | (_ & _ & name_lit & def_lit & Hn & Hd & ->)])
    %migrate_body_inv coms.
  exists name_lit, def_lit. repeat split; [done | done |].
  apply rewritten_comments.
Qed.

(** X10. When a class is processed, the two axiom nodes it gets both
    annotate that class and both carry the same cross-reference: the plain
    literal of the first see-also object's text in NCIT form, which starts
    with [NCIT:]. *)
Theorem migrate_body_xref st cls st' :
  migrate_body st cls = Ok (st', true) →
  ∃ o,
    head (Graph.objects (graph st) cls RDFS.seeAlso) = Some o
    ∧ String.prefix "NCIT:" (ncit_id (str o)) = true
    ∧ Forall (λ ax,
        (ax, OWL.annotatedSource, cls) ∈ graph st'
        ∧ (ax, HAS_XREF, Literal (ncit_id (str o)) Plain) ∈ graph st')
      [BNode (next_bnode st); BNode (S (next_bnode st))].
Proof.
  intros (o & Ho & [(_ & _ & [=]) | (_ & _ & name_lit & def_lit & _ & _ & ->)])
    %migrate_body_inv.
  exists o. split; [done |]. split.
  { unfold ncit_id. destruct (String.prefix "NCIT:" (str o)) eqn:Hp; [done |].
    by destruct (str o). }
  assert (Hkept : ∀ t,
            t ∈ added st cls o name_lit def_lit →
            predicate t ≠ RDFS.comment ∧ predicate t ≠ RDFS.seeAlso →
            t ∈ graph (rewritten st cls o name_lit def_lit)).
  { intros t Ht [Hc Hs]. apply elem_of_rewritten. split; [by right |].
    unfold removed. rewrite !elem_of_cons, elem_of_nil.
    intros [-> | [-> | [-> | []]]]; by (apply Hc || apply Hs). }
  repeat first [apply Forall_nil_2 | apply Forall_cons_2].
  all: split; apply Hkept; try (split; intros Hq; by vm_compute in Hq).
  all: unfold added, axiom_triples; rewrite elem_of_app, !elem_of_cons; auto 12.
Qed.

(** X11. Grafting the same annotation twice is not idempotent: the second
    call finds the assertion triple in place and adds the five triples of
    one more axiom node. *)
Theorem graft_axiom_twice st subj prop tgt xref :
  fresh st →
  term_below (next_bnode st) subj → term_below (next_bnode st) prop →
  term_below (next_bnode st) tgt → term_below (next_bnode st) xref →
  let st1 := graft_axiom st subj prop tgt xref in
  graph (graft_axiom st1 subj prop tgt xref)
  = graph st1 ++ axiom_triples (BNode (S (next_bnode st))) subj prop tgt xref.
Proof.
  intros Hf Hs Hp Ht Hx st1.
  rewrite graft_axiom_graph_fresh.
  - unfold st1 at 2. rewrite graft_axiom_next. f_equal.
    unfold Graph.add. rewrite decide_True; [done |].
    apply elem_of_graft_axiom. auto.
  - by apply fresh_graft_axiom.
  - unfold st1. rewrite graft_axiom_next.
    eapply term_below_mono; [| exact Hs]. lia.
Qed.

(** ** Files *)

Section Files.

Implicit Types (fs : filesystem) (p seen todo : path) (n : node).

(** [mkdir] changes no entry that exists. *)
Lemma mkdir_parents_keeps fs seen todo p n :
  fs !! p = Some n → (mkdir_parents fs seen todo).1 !! p = Some n.
Proof.
  revert fs seen. induction todo as [| c todo IH]; intros fs seen Hp; simpl;
    [done |].
  destruct (fs !! (seen ++ [c])) as [[f |] |] eqn:Hd; [done | by apply IH |].
  apply IH. rewrite lookup_insert_ne; [done |].
  intros Heq. rewrite Heq in Hd. congruence.
Qed.

(** What [mkdir] creates is a directory, at a path no longer than the one
    asked for. *)
Lemma mkdir_parents_new fs seen todo p n :
  (mkdir_parents fs seen todo).1 !! p = Some n →
  fs !! p = Some n
  ∨ (n = Dir ∧ length seen < length p ≤ length seen + length todo).
Proof.
  revert fs seen. induction todo as [| c todo IH]; intros fs seen Hp;
    simpl in *; [by left |].
  destruct (fs !! (seen ++ [c])) as [[f |] |] eqn:Hd.
  - by left.
  - destruct (IH _ _ Hp) as [? | (-> & Hlen)]; [by left | right].
    rewrite length_app in Hlen. simpl in Hlen. split; [done | lia].
  - destruct (IH _ _ Hp) as [Hins | (-> & Hlen)].
    + destruct (decide (p = seen ++ [c])) as [-> | Hne].
      * rewrite lookup_insert_eq in Hins. simplify_eq. right.
        rewrite length_app. simpl. split; [done | lia].
      * rewrite lookup_insert_ne in Hins by done. by left.
    + right. rewrite length_app in Hlen. simpl in Hlen. split; [done | lia].
Qed.

Lemma length_parent p : p ≠ [] → S (length (parent p)) = length p.
Proof.
  intros Hne. unfold parent.
  destruct (exists_last Hne) as (l & a & ->).
  rewrite removelast_last, length_app. simpl. lia.
Qed.

(** Creating the parents of a path leaves the path itself as it was. *)
Lemma mkdir_parents_self fs p :
  (mkdir_parents fs [] (parent p)).1 !! p = fs !! p.
Proof.
  destruct (fs !! p) as [n |] eqn:Hp; [by apply mkdir_parents_keeps |].
  destruct ((mkdir_parents fs [] (parent p)).1 !! p) as [n |] eqn:Hq; [| done].
  apply mkdir_parents_new in Hq as [Hq | (_ & Hlen)]; [congruence |].
  simpl in Hlen. destruct p as [| a p]; [simpl in Hlen; lia |].
  pose proof (length_parent (a :: p) ltac:(done)) as Hpar. lia.
Qed.

(** The states [g.parse] leaves are duplicate free and fresh. *)
Lemma parse_loaded fs in_path st :
  parse fs in_path = Some st → NoDup (graph st) ∧ fresh st.
Proof.
  unfold parse. intros H. repeat case_match; simplify_eq.
  split; [apply loaded_NoDup | apply loaded_fresh].
Qed.

(** What [g.serialize] does to the directory tree. *)
Lemma serialize_cases xml fs (g : list triple) out_path :
  let r := serialize xml fs g out_path in
  (r = (<[out_path := File (RdfDoc g)]> fs, true)
   ∧ accepts xml g = true
   ∧ stat fs (parent out_path) = Some Dir ∧ stat fs out_path ≠ Some Dir)
  ∨ (r = (<[out_path := File (Bytes (written_before_error xml g))]> fs, false)
     ∧ accepts xml g = false)
  ∨ r = (fs, false).
Proof.
  unfold serialize.
  destruct (stat fs out_path) as [[c |] |] eqn:Hd;
    destruct (stat fs (parent out_path)) as [[c' |] |] eqn:Hp; auto;
    destruct (accepts xml g); auto 10.
Qed.

(** The ways [migrate] ends. *)
Lemma migrate_cases xml fs in_path out_path :
  let r := migrate xml fs in_path out_path in
  (result r = Returned PyNone
   ∧ ∃ st st' processed_count,
       parse fs in_path = Some st
       ∧ migrate_graph st = Ok (st', processed_count)
       ∧ accepts xml (graph st') = true
       ∧ stat fs (parent out_path) = Some Dir
       ∧ stat fs out_path ≠ Some Dir
       ∧ files r = <[out_path := File (RdfDoc (graph st'))]> fs
       ∧ stdout r = [Loaded in_path; ProcessedClasses processed_count;
                     Saved out_path])
  ∨ (result r = SysExit 1 ∧ files r = fs
     ∧ stdout r = [ErrorLoading in_path])
  ∨ (result r = SysExit 1
     ∧ stdout r = [Loaded in_path; ErrorSaving out_path]
     ∧ (files r = fs
        ∨ ∃ raw, files r = <[out_path := File (Bytes raw)]> fs)).
Proof.
  unfold migrate.
  destruct (parse fs in_path) as [st |] eqn:Hparse; [| right; left; auto].
  destruct (parse_loaded _ _ _ Hparse) as [Hnd _].
  destruct (migrate_groups_total (Graph.keys (graph st) RDFS.seeAlso) st 0 Hnd)
    as [[st' n] Hrun].
  fold (migrate_graph st) in Hrun. rewrite Hrun.
  destruct (serialize_cases xml fs (graph st') out_path)
    as [(-> & Hacc & Hpar & Hdst) | [(-> & _) | ->]]; simpl.
  - left. split; [done |]. by exists st, st', n.
  - right. right. split; [done |]. split; [done |]. right. by eexists.
  - right. right. split; [done |]. split; [done |]. by left.
Qed.

End Files.

(** X12. [migrate] ends in one of three ways only, and no exception
    escapes from the loop: it returns [None] with the rewritten graph of
    the parsed input at the output path; or the input does not load and
    it exits with code 1 with the directory tree as it was; or the save
    fails and it exits with code 1 with the directory tree as it was or
    with the output path holding what the writer wrote before it raised.
    No entry other than the output path changes. *)
Theorem migrate_outcomes xml fs in_path out_path :
  let r := migrate xml fs in_path out_path in
  (result r = Returned PyNone
   ∧ ∃ st st' processed_count,
       parse fs in_path = Some st
       ∧ migrate_graph st = Ok (st', processed_count)
       ∧ accepts xml (graph st') = true
       ∧ files r = <[out_path := File (RdfDoc (graph st'))]> fs)
  ∨ (result r = SysExit 1 ∧ files r = fs
     ∧ stdout r = [ErrorLoading in_path])
  ∨ (result r = SysExit 1
     ∧ stdout r = [Loaded in_path; ErrorSaving out_path]
     ∧ (files r = fs
        ∨ ∃ raw, files r = <[out_path := File (Bytes raw)]> fs)).
Proof.
  intros r.
  destruct (migrate_cases xml fs in_path out_path)
    as [(Hres & st & st' & n & Hp & Hrun & Hacc & _ & _ & Hfiles & _) | Hfail];
    [left | by right].
  split; [done |]. by exists st, st', n.
Qed.

(** X13. [main] never removes or changes an existing entry of the
    directory tree other than the destination path. *)
Theorem main_keeps_other_files xml fs source_file destination_file verbose p n :
  fs !! p = Some n → p ≠ destination_file →
  files (main xml fs source_file destination_file verbose) !! p = Some n.
Proof.
  intros Hp Hne. unfold main.
  destruct (negb (exists_ fs source_file)); [done |].
  destruct (negb (is_file fs source_file)); [done |].
  pose proof (mkdir_parents_keeps fs [] (parent destination_file) p n Hp) as Hk.
  destruct (mkdir_parents fs [] (parent destination_file)) as [fs1 [e |]];
    simpl in *; [done |].
  destruct (migrate_cases xml fs1 source_file destination_file)
    as [(_ & st & st' & k & _ & _ & _ & _ & _ & -> & _)
       | [(_ & -> & _) | (_ & _ & [-> | [raw ->]])]];
    rewrite ?lookup_insert_ne; done.
Qed.

(** X14. When [main] ends with a non-zero exit status before the save
    (source missing or not a file, a file in the way of the parent
    directories, load error), the entry at the destination path is what it
    was.  Only a save error, reported as such, can leave the destination
    changed, and then it holds what the writer wrote before it raised. *)
Theorem main_failure_destination xml fs source_file destination_file verbose :
  let r := main xml fs source_file destination_file verbose in
  exit_code (result r) ≠ 0 →
  files r !! destination_file = fs !! destination_file
  ∨ (ErrorSaving destination_file ∈ stdout r
     ∧ ∃ raw, files r !! destination_file = Some (File (Bytes raw))).
Proof.
  intros r. unfold r, main.
  destruct (negb (exists_ fs source_file)); [by left |].
  destruct (negb (is_file fs source_file)); [by left |].
  pose proof (mkdir_parents_self fs destination_file) as Hself.
  destruct (mkdir_parents fs [] (parent destination_file)) as [fs1 [e |]];
    simpl in *; [by left |].
  destruct (migrate_cases xml fs1 source_file destination_file)
    as [(-> & _) | [(_ & -> & _) | (_ & -> & [-> | [raw ->]])]];
    [done | by left | by left |].
  intros _. right. split.
  - rewrite elem_of_app. right. rewrite !elem_of_cons. auto.
  - exists raw. apply lookup_insert_eq.
Qed.

(** X15. When [main] ends with exit status 0, the source parsed, the
    writer accepted the rewritten graph of the source, the destination
    holds that graph, its parent is a directory, and the count of that
    rewriting was printed. *)
Theorem main_success xml fs source_file destination_file verbose :
  let r := main xml fs source_file destination_file verbose in
  exit_code (result r) = 0 →
  ∃ st st' processed_count,
    parse fs source_file = Some st
    ∧ migrate_graph st = Ok (st', processed_count)
    ∧ accepts xml (graph st') = true
    ∧ files r !! destination_file = Some (File (RdfDoc (graph st')))
    ∧ stat (files r) (parent destination_file) = Some Dir
    ∧ ProcessedClasses processed_count ∈ stdout r.
Proof.
  intros r. unfold r, main.
  destruct (exists_ fs source_file) eqn:Hex; [| done]. simpl.
  destruct (is_file fs source_file) eqn:Hfile; [| done]. simpl.
  pose proof (mkdir_parents_keeps fs [] (parent destination_file) source_file)
    as Hk.
  destruct (mkdir_parents fs [] (parent destination_file)) as [fs1 [e |]];
    simpl in *; [done |].
  destruct (migrate_cases xml fs1 source_file destination_file)
    as [(Hres & st & st' & k & Hp & Hrun & Hacc & Hpar & Hdst & Hfiles & Hout)
       | [(Hres & _) | (Hres & _)]]; [| by rewrite Hres ..].
  intros _. exists st, st', k.
  assert (Hsrc : parse fs source_file = Some st).
  { unfold parse, is_file, stat in *.
    destruct source_file as [| a l]; [done |].
    destruct (fs !! (a :: l)) as [[c |] |] eqn:Hl; try done.
    by rewrite (Hk _ eq_refl) in Hp. }
  split; [done |]. split; [done |]. split; [done |].
  rewrite Hfiles, Hout. split; [apply lookup_insert_eq |]. split.
  - destruct destination_file as [| a l]; [done |].
    unfold stat in *.
    destruct (parent (a :: l)) as [| b l'] eqn:Hpl; [done |].
    rewrite lookup_insert_ne; [done |].
    intros Heq. pose proof (length_parent (a :: l) ltac:(done)) as Hlen.
    rewrite Hpl, <- Heq in Hlen. lia.
  - rewrite elem_of_app. right. rewrite !elem_of_cons. auto.
Qed.

(** X16. [--verbose] changes nothing but the console: the outcome and the
    directory tree are the same, and the output is the same or has the two
    path lines in front. *)
Theorem main_verbose_only_prints xml fs source_file destination_file :
  let quiet := main xml fs source_file destination_file false in
  let loud := main xml fs source_file destination_file true in
  result loud = result quiet
  ∧ files loud = files quiet
  ∧ (stdout loud = stdout quiet
     ∨ stdout loud = [VerboseSource source_file;
                      VerboseDestination destination_file] ++ stdout quiet).
Proof.
  unfold main.
  destruct (negb (exists_ fs source_file)); [by auto |].
  destruct (negb (is_file fs source_file)); [by auto |].
  destruct (mkdir_parents fs [] (parent destination_file)) as [fs1 [e |]];
    simpl; auto.
Qed.

(** ** Running the migration again *)

Section Again.

Implicit Types (st : state) (cls c : term) (subjs : list term).

(** With a see-also object to read and fewer than two comments, an
    iteration changes nothing. *)
Lemma migrate_body_skip st cls :
  Graph.objects (graph st) cls RDFS.seeAlso ≠ [] →
  length (Graph.objects (graph st) cls RDFS.comment) < 2 →
  migrate_body st cls = Ok (st, false).
Proof.
  intros Hne Hlt. unfold migrate_body.
  destruct (Graph.objects (graph st) cls RDFS.seeAlso); [done |]. simpl.
  by destruct (Nat.ltb_spec
    (length (Graph.objects (graph st) cls RDFS.comment)) 2); [| lia].
Qed.

Lemma migrate_loop_skip subjs st k :
  (∀ c, c ∈ subjs →
     Graph.objects (graph st) c RDFS.seeAlso ≠ []
     ∧ length (Graph.objects (graph st) c RDFS.comment) < 2) →
  migrate_loop subjs st k = Ok (st, k).
Proof.
  induction subjs as [| c subjs IH]; intros H; simpl; [done |].
  destruct (H c) as [Hne Hlt]; [left |].
  rewrite migrate_body_skip by done. simpl. apply IH.
  intros c' Hc'. apply H. by right.
Qed.

Lemma migrate_groups_skip objs st k :
  (∀ o c, c ∈ Graph.subjects_of (graph st) RDFS.seeAlso o →
     Graph.objects (graph st) c RDFS.seeAlso ≠ []
     ∧ length (Graph.objects (graph st) c RDFS.comment) < 2) →
  migrate_groups objs st k = Ok (st, k).
Proof.
  intros H. induction objs as [| o objs IH]; simpl; [done |].
  rewrite migrate_loop_skip by (intros c Hc; by eapply H). simpl. apply IH.
Qed.

Lemma length_filter_eq_NoDup {A} `{EqDecision A} (l : list A) (a : A) :
  NoDup l → length (filter (λ x, x = a) l) ≤ 1.
Proof.
  induction 1 as [| y l Hy Hnd IH]; [simpl; lia |].
  rewrite filter_cons. case_decide as Heq; [| done]. subst y.
  assert (filter (λ x, x = a) l = []) as ->; [| simpl; lia].
  destruct (filter (λ x, x = a) l) as [| z l'] eqn:Hf; [done |].
  assert (Hz : z ∈ filter (λ x, x = a) l) by (rewrite Hf; left).
  apply list_elem_of_filter in Hz as [-> Hz]. done.
Qed.

(** When the store yields no subject twice, a class has one see-also
    object at most. *)
Lemma single_link (g : list triple) c x y :
  NoDup (Graph.subjects g RDFS.seeAlso) →
  (c, RDFS.seeAlso, x) ∈ g → (c, RDFS.seeAlso, y) ∈ g → x = y.
Proof.
  intros Hnd Hx%elem_of_objects Hy%elem_of_objects.
  pose proof (length_filter_eq_NoDup _ c Hnd) as Hlen.
  rewrite subjects_visits in Hlen.
  destruct (Graph.objects g c RDFS.seeAlso) as [| a [| b l]];
    [by apply elem_of_nil in Hx | | simpl in Hlen; lia].
  apply list_elem_of_singleton in Hx, Hy. congruence.
Qed.

Lemma plain_str x : is_plain x → Literal (str x) Plain = x.
Proof. by destruct x as [| | ? []]. Qed.

End Again.

(** X17. On a graph whose see-also objects are plain literals, one for
    each class at most, a second run rewrites nothing: run on its own
    output, the loop counts 0 and leaves the graph as it is. *)
Theorem migrate_graph_again st st' processed_count :
  fresh st →
  plain_links (graph st) →
  NoDup (Graph.subjects (graph st) RDFS.seeAlso) →
  migrate_graph st = Ok (st', processed_count) →
  migrate_graph st' = Ok (st', 0).
Proof.
  intros Hf Hplain Hsingle Hrun. apply migrate_groups_skip.
  intros x c Hout%elem_of_subjects_of.
  split.
  { intros Hnil. apply elem_of_objects in Hout. rewrite Hnil in Hout.
    by apply elem_of_nil in Hout. }
  pose proof Hrun as Hloop. rewrite migrate_graph_loop in Hloop.
  assert (Hin : (c, RDFS.seeAlso, x) ∈ graph st).
  { eapply migrate_loop_no_new; [exact Hloop | by right | done]. }
  assert (Hsub : c ∈ Graph.subjects (graph st) RDFS.seeAlso).
  { apply elem_of_subjects. by exists x. }
  pose proof (subjects_below _ _ _ Hf Hsub) as Hbelow.
  destruct (Nat.lt_ge_cases
              (length (Graph.objects (graph st) c RDFS.comment)) 2)
    as [Hlt | Hge].
  - destruct (migrate_loop_frame _ _ _ _ _ c Hloop Hbelow Hlt) as [Hsame _].
    by rewrite (objects_of_subject _ (graph st)).
  - exfalso.
    pose proof (visited_covers _ _ _ Hrun Hf Hsub) as Hvis.
    pose proof (migrate_loop_processes _ _ _ _ _ c Hloop Hbelow Hvis Hge)
      as Hlog.
    destruct (processed_split _ _ 0 _ Hlog)
      as (subjs1 & subjs2 & st1 & k1 & st2 & Hsplit & Hpre & Hbody).
    rewrite Hsplit in Hloop.
    rewrite (migrate_loop_app _ _ _ _ _ _ Hpre) in Hloop. simpl in Hloop.
    rewrite Hbody in Hloop. simpl in Hloop.
    destruct (migrate_body_cleanup _ _ _ Hbody)
      as (o & name_lit & def_lit & Ho & _ & _ & Hgone).
    assert (Ho1 : (c, RDFS.seeAlso, o) ∈ graph st1).
    { apply elem_of_objects. by apply head_Some_elem_of. }
    assert (Ho0 : (c, RDFS.seeAlso, o) ∈ graph st).
    { eapply migrate_loop_no_new; [exact Hpre | by right | done]. }
    assert (x = o) as -> by (by eapply single_link).
    unfold plain_links in Hplain. rewrite Forall_forall in Hplain.
    pose proof (Hplain _ Ho0 eq_refl) as Hp. simpl in Hp.
    rewrite Forall_forall in Hgone.
    apply (Hgone (c, RDFS.seeAlso, Literal (str o) Plain)).
    + rewrite !elem_of_cons. auto.
    + rewrite (plain_str o Hp).
      eapply migrate_loop_no_new; [exact Hloop | by right | done].
Qed.

Lemma migrate_graph_again_witness :
  migrate_graph (migrated with_single_comment)
  = Ok (migrated with_single_comment, 0).
Proof.
  apply (migrate_graph_again (loaded with_single_comment)
           (migrated with_single_comment) 1).
  - by_evaluation.
  - by_evaluation.
  - by_evaluation.
  - vm_compute. reflexivity.
Defined.

(** ** The count and the return value *)

(** C6, as the code has it.  A run that neither fails to load nor to save
    returns [None]; the count is printed, between the two confirmation
    lines, and the rewritten graph is in the output file.  When no class
    has more than one see-also triple, the count is the number of subjects
    that were rewritten, those whose triples changed. *)
Theorem migrate_prints_count xml fs in_path out_path v :
  result (migrate xml fs in_path out_path) = Returned v →
  v = PyNone
  ∧ ∃ st st' processed_count,
      parse fs in_path = Some st
      ∧ migrate_graph st = Ok (st', processed_count)
      ∧ stdout (migrate xml fs in_path out_path)
        = [Loaded in_path; ProcessedClasses processed_count; Saved out_path]
      ∧ files (migrate xml fs in_path out_path) !! out_path
        = Some (File (RdfDoc (graph st')))
      ∧ (NoDup (Graph.subjects (graph st) RDFS.seeAlso) →
         processed_count = length (changed_subjects st st')).
Proof.
  intros H.
  destruct (migrate_cases xml fs in_path out_path)
    as [(Hres & st & st' & n & Hp & Hrun & _ & _ & _ & Hfiles & Hout)
       | [(Hres & _) | (Hres & _)]].
  - rewrite Hres in H. simplify_eq. split; [done |].
    exists st, st', n. rewrite Hfiles, Hout.
    repeat split; [done | done | apply lookup_insert_eq |].
    intros Hsingle. destruct (parse_loaded _ _ _ Hp) as [_ Hf].
    by apply count_changed.
  - rewrite Hres in H. done.
  - rewrite Hres in H. done.
Qed.

Lemma migrate_prints_count_witness :
  let r := migrate iri_writer scenario_fs ["in.rdf"] ["data"; "out.rdf"] in
  PyNone = PyNone
  ∧ ∃ st st' processed_count,
      parse scenario_fs ["in.rdf"] = Some st
      ∧ migrate_graph st = Ok (st', processed_count)
      ∧ stdout r = [Loaded ["in.rdf"]; ProcessedClasses processed_count;
                    Saved ["data"; "out.rdf"]]
      ∧ files r !! ["data"; "out.rdf"] = Some (File (RdfDoc (graph st')))
      ∧ (NoDup (Graph.subjects (graph st) RDFS.seeAlso) →
         processed_count = length (changed_subjects st st')).
Proof.
  intros r.
  apply (migrate_prints_count iri_writer scenario_fs ["in.rdf"]
           ["data"; "out.rdf"] PyNone).
  vm_compute. reflexivity.
Defined.

(** With two see-also triples on one class the count is not the number of
    rewritten subjects: 2 is counted and one subject changed. *)
Example two_links_count :
  migrate_graph (loaded two_links) = Ok (migrated two_links, 2)
  ∧ changed_subjects (loaded two_links) (migrated two_links) = [C123].
Proof. split; by_evaluation. Qed.

(** C6 as stated fails on the scenario: one class is rewritten, the count
    1 is printed, and the call returns [None], not 1. *)
Lemma migrate_returns_None :
  let r := migrate iri_writer scenario_fs ["in.rdf"] ["data"; "out.rdf"] in
  result r = Returned PyNone
  ∧ result r ≠ Returned (PyInt 1)
  ∧ stdout r = [Loaded ["in.rdf"]; ProcessedClasses 1; Saved ["data"; "out.rdf"]]
  ∧ changed_subjects (loaded scenario) (migrated scenario) = [C123].
Proof.
  intros r. split; [by_evaluation |]. split; [| split; by_evaluation].
  vm_compute. discriminate.
Qed.

(** * The further properties on sample documents *)

Lemma migrate_graph_total_witness :
  ∃ st' processed_count,
    migrate_graph (loaded two_links) = Ok (st', processed_count).
Proof. apply migrate_graph_total. by_evaluation. Defined.

Lemma cleanup_at_end_witness :
  ∃ o name_lit def_lit,
    head (Graph.objects (graph (loaded scenario)) C123 RDFS.seeAlso) = Some o
    ∧ head (sorted text_length
              (Graph.objects (graph (loaded scenario)) C123 RDFS.comment))
      = Some name_lit
    ∧ last (sorted text_length
              (Graph.objects (graph (loaded scenario)) C123 RDFS.comment))
      = Some def_lit
    ∧ Forall (λ t, t ∉ graph (migrated scenario))
        [ (C123, RDFS.comment, name_lit);
          (C123, RDFS.comment, def_lit);
          (C123, RDFS.seeAlso, Literal (str o) Plain) ].
Proof.
  apply (cleanup_at_end [] C123 [] (loaded scenario) 0 (loaded scenario) 0
           (migrated scenario) (migrated scenario) 1).
  - reflexivity.
  - vm_compute. reflexivity.
  - vm_compute. reflexivity.
Defined.

Lemma migrate_graph_keeps_witness :
  (C123, label, Literal "Concept" Plain) ∈ graph (migrated with_label).
Proof.
  apply (migrate_graph_keeps (loaded with_label) (migrated with_label) 1).
  - vm_compute. reflexivity.
  - by_evaluation.
  - vm_compute. discriminate.
  - vm_compute. discriminate.
Defined.

Lemma migrate_graph_no_new_annotation_witness :
  (C7, RDFS.comment, Literal "Only a name" Plain)
  ∈ graph (loaded with_single_comment).
Proof.
  apply (migrate_graph_no_new_annotation (loaded with_single_comment)
           (migrated with_single_comment) 1).
  - vm_compute. reflexivity.
  - left. reflexivity.
  - by_evaluation.
Defined.

Lemma migrate_graph_comment_triples_witness :
  length (comment_triples (graph (migrated two_links))) + 2 * 2
  = length (comment_triples (graph (loaded two_links))).
Proof.
  apply (migrate_graph_comment_triples (loaded two_links) (migrated two_links) 2).
  - by_evaluation.
  - vm_compute. reflexivity.
Defined.

Lemma migrate_graph_axiom_nodes_witness :
  axiom_nodes (graph (migrated two_links))
  = axiom_nodes (graph (loaded two_links))
    ++ (BNode <$> seq (next_bnode (loaded two_links)) (2 * 2)).
Proof.
  apply (migrate_graph_axiom_nodes (loaded two_links) (migrated two_links) 2).
  - by_evaluation.
  - vm_compute. reflexivity.
Defined.

Lemma migrate_graph_processes_witness :
  C123 ∈ visited (loaded with_single_comment)
  ∧ C123 ∈ processed (visited (loaded with_single_comment))
             (loaded with_single_comment)
  ∧ 1 ≤ 1
  ∧ filter (λ t, subject t = C123) (graph (migrated with_single_comment))
    ≠ filter (λ t, subject t = C123) (graph (loaded with_single_comment)).
Proof.
  apply (migrate_graph_processes (loaded with_single_comment)
           (migrated with_single_comment) 1 C123).
  - by_evaluation.
  - by_evaluation.
  - vm_compute. lia.
  - vm_compute. reflexivity.
Defined.

Lemma migrate_graph_untouched_witness :
  filter (λ t, subject t = C5) (graph (migrated with_label))
  = filter (λ t, subject t = C5) (graph (loaded with_label)).
Proof.
  apply (migrate_graph_untouched (loaded with_label) (migrated with_label) 1 C5).
  - exact I.
  - vm_compute. reflexivity.
  - vm_compute. reflexivity.
Defined.

Lemma migrate_body_other_comments_witness :
  ∃ st',
    migrate_body (loaded two_links) C123 = Ok (st', true)
    ∧ ∃ name_lit def_lit,
        head (sorted text_length
                (Graph.objects (graph (loaded two_links)) C123 RDFS.comment))
        = Some name_lit
        ∧ last (sorted text_length
                  (Graph.objects (graph (loaded two_links)) C123 RDFS.comment))
          = Some def_lit
        ∧ Graph.objects (graph st') C123 RDFS.comment
          = filter (λ c, c ≠ name_lit ∧ c ≠ def_lit)
              (Graph.objects (graph (loaded two_links)) C123 RDFS.comment).
Proof.
  eexists. split; [vm_compute; reflexivity |].
  apply (migrate_body_other_comments (loaded two_links) C123).
  vm_compute. reflexivity.
Defined.

Lemma migrate_body_xref_witness :
  ∃ st',
    migrate_body (loaded scenario) C123 = Ok (st', true)
    ∧ ∃ o,
        head (Graph.objects (graph (loaded scenario)) C123 RDFS.seeAlso) = Some o
        ∧ String.prefix "NCIT:" (ncit_id (str o)) = true
        ∧ Forall (λ ax,
            (ax, OWL.annotatedSource, C123) ∈ graph st'
            ∧ (ax, HAS_XREF, Literal (ncit_id (str o)) Plain) ∈ graph st')
          [BNode (next_bnode (loaded scenario));
           BNode (S (next_bnode (loaded scenario)))].
Proof.
  eexists. split; [vm_compute; reflexivity |].
  apply (migrate_body_xref (loaded scenario) C123).
  vm_compute. reflexivity.
Defined.

Lemma graft_axiom_twice_witness :
  let st1 := graft_axiom (loaded scenario) C123 HAS_SYN short_name xref_C999 in
  graph (graft_axiom st1 C123 HAS_SYN short_name xref_C999)
  = graph st1 ++ axiom_triples (BNode 2) C123 HAS_SYN short_name xref_C999.
Proof.
  apply (graft_axiom_twice (loaded scenario) C123 HAS_SYN short_name xref_C999).
  - by_evaluation.
  - exact I.
  - exact I.
  - exact I.
  - exact I.
Defined.

Lemma main_keeps_other_files_witness :
  files (main iri_writer scenario_fs ["in.rdf"] ["data"; "out.rdf"] false)
    !! ["in.rdf"]
  = Some (File (RdfDoc scenario)).
Proof.
  apply main_keeps_other_files.
  - vm_compute. reflexivity.
  - discriminate.
Defined.

Lemma main_failure_destination_witness :
  let r := main iri_writer broken_fs ["in.rdf"] ["out"; "hpvco.rdf"] false in
  files r !! ["out"; "hpvco.rdf"] = broken_fs !! ["out"; "hpvco.rdf"]
  ∨ (ErrorSaving ["out"; "hpvco.rdf"] ∈ stdout r
     ∧ ∃ raw, files r !! ["out"; "hpvco.rdf"] = Some (File (Bytes raw))).
Proof.
  apply (main_failure_destination iri_writer broken_fs ["in.rdf"]
           ["out"; "hpvco.rdf"] false).
  vm_compute. discriminate.
Defined.

(** A load failure comes after the parent of the destination was created:
    the run exits with 1, the directory is there and the file is not. *)
Example main_load_failure :
  let r := main iri_writer broken_fs ["in.rdf"] ["out"; "hpvco.rdf"] false in
  result r = SysExit 1
  ∧ stdout r = [ErrorLoading ["in.rdf"]]
  ∧ files r !! ["out"] = Some Dir
  ∧ files r !! ["out"; "hpvco.rdf"] = None.
Proof. repeat split; vm_compute; reflexivity. Qed.

(** A save failure comes after the destination was opened: when the
    writer does not accept the rewritten graph, the run exits with 1 and
    the older output is gone. *)
Example main_save_failure :
  let r := main iri_writer unwritable_fs ["in.rdf"] ["out.rdf"] false in
  unwritable_fs !! ["out.rdf"] = Some (File (RdfDoc scenario))
  ∧ result r = SysExit 1
  ∧ stdout r = [Loaded ["in.rdf"]; ErrorSaving ["out.rdf"]]
  ∧ files r !! ["out.rdf"] = Some (File (Bytes "<?xml")).
Proof. repeat split; vm_compute; reflexivity. Qed.

Lemma main_success_witness :
  let r := main iri_writer scenario_fs ["in.rdf"] ["out"; "hpvco.rdf"] true in
  ∃ st st' processed_count,
    parse scenario_fs ["in.rdf"] = Some st
    ∧ migrate_graph st = Ok (st', processed_count)
    ∧ accepts iri_writer (graph st') = true
    ∧ files r !! ["out"; "hpvco.rdf"] = Some (File (RdfDoc (graph st')))
    ∧ stat (files r) (parent ["out"; "hpvco.rdf"]) = Some Dir
    ∧ ProcessedClasses processed_count ∈ stdout r.
Proof.
  apply (main_success iri_writer scenario_fs ["in.rdf"] ["out"; "hpvco.rdf"]
           true).
  vm_compute. reflexivity.
Defined.
